(** * The iRODS hostname cache (lib/core/src/hostname_cache.cpp)

    A shallow embedding of the shared-memory hostname cache and the proofs
    of its specification.  The embedding follows the translation unit from top
    to bottom: the [alias] value type and its constructor, the process-wide
    globals, the clock, and the public operations of
    [irods::experimental::net::hostname_cache].

    Conventions.
    - [std::string] and [std::string_view] are [string]; a [char] array is a
      [list ascii].  A [string_view] is taken to view a whole NUL-terminated
      character sequence, so reading it through [data()] as a C string yields
      the characters before its first NUL.
    - [std::int64_t], [pid_t] and [std::size_t] values are [Z]; signed
      arithmetic that leaves the 64-bit range is undefined behaviour.
    - The [bi::map] is a [gmap]: the results of the operations below do not
      depend on the iteration order.
    - Undefined behaviour (null dereference, a write or read past the
      [hostname] buffer, signed overflow) and C++ exceptions are explicit
      outcomes of the operations. *)

From Stdlib Require Import ZArith Ascii String List Lia.
From stdpp Require Import base option gmap strings list fin_maps.

Local Open Scope Z_scope.

(** ** C strings and character buffers *)

Definition NUL : ascii := Ascii.zero.

Definition is_nul (c : ascii) : bool := Ascii.eqb c NUL.

(** The characters of [s] before its first NUL: what a constructor taking
    [const char*] reads from [s.data()]. *)
Fixpoint c_str (s : string) : string :=
  match s with
  | EmptyString => EmptyString
  | String c s' => if is_nul c then EmptyString else String c (c_str s')
  end.

(** [s] has no embedded NUL character. *)
Fixpoint nul_free (s : string) : bool :=
  match s with
  | EmptyString => true
  | String c s' => negb (is_nul c) && nul_free s'
  end.

(** [std::strncpy(dest, src, n)]: the [n] characters stored at
    [dest[0..n)].  Characters of [src] are copied until [n] are written or
    a NUL is met; the remainder is filled with NUL. *)
Fixpoint strncpy (src : string) (n : nat) : list ascii :=
  match n with
  | O => []
  | S n' =>
      match src with
      | EmptyString => NUL :: strncpy EmptyString n'
      | String c src' =>
          if is_nul c then NUL :: strncpy EmptyString n'
          else c :: strncpy src' n'
      end
  end.

(** Storing [bytes] at the start of the array [buf].  [None] when the store
    runs past the end of the array. *)
Definition store_at_start (buf bytes : list ascii) : option (list ascii) :=
  if (length bytes <=? length buf)%nat
  then Some (bytes ++ drop (length bytes) buf)
  else None.

(** Reading a [char] array as a C string, as the conversion of
    [hostname] to [std::string] does.
    [None] when no NUL is found inside the array, i.e. the read runs past
    its end. *)
Fixpoint read_c_string (buf : list ascii) : option string :=
  match buf with
  | [] => None
  | c :: buf' =>
      if is_nul c then Some EmptyString
      else option_map (String c) (read_c_string buf')
  end.

(** ** 64-bit signed integers *)

Definition int64_min : Z := - 2 ^ 63.
Definition int64_max : Z := 2 ^ 63 - 1.

Definition in_int64 (z : Z) : bool := (int64_min <=? z) && (z <=? int64_max).

(** ** The clock

    [clock_type] is [std::chrono::system_clock].  Its time points count
    ticks since the epoch in a signed 64-bit representation; the tick period
    is fixed by the standard library in use. *)

Class clock_type := {
  ticks_per_second : Z;
  ticks_per_second_pos : 0 < ticks_per_second
}.

(** libstdc++ counts nanoseconds, libc++ counts microseconds. *)
Definition libstdcxx_system_clock : clock_type :=
  {| ticks_per_second := 1000000000; ticks_per_second_pos := eq_refl |}.

Definition libcxx_system_clock : clock_type :=
  {| ticks_per_second := 1000000; ticks_per_second_pos := eq_refl |}.

Section Chrono.
Context `{clock_type}.

(** [duration_cast<seconds>(tp.time_since_epoch()).count()]: integer
    division truncating towards zero. *)
Definition seconds_since_epoch (tp : Z) : Z := Z.quot tp ticks_per_second.

(** [tp + d] for a time point [tp] of the clock and [d] a number of
    seconds: [d] is converted to ticks and added.  [None] on signed
    overflow. *)
Definition time_point_plus_seconds (tp d : Z) : option Z :=
  let ticks := d * ticks_per_second in
  if in_int64 ticks && in_int64 (tp + ticks) then Some (tp + ticks) else None.

(** [current_timestamp_in_seconds], applied to the reading of
    [clock_type::now()]. *)
Definition current_timestamp_in_seconds (now : Z) : Z :=
  seconds_since_epoch now.
End Chrono.

(** ** The value type mapped to a hostname key *)

Definition hostname_capacity : nat := 256.

Record alias := {
  hostname : list ascii;   (* char hostname[256] *)
  expiration : Z;          (* seconds since epoch at which the alias expires *)
  expires_after : Z        (* the number of seconds given at insertion *)
}.

(** The constructor: [hostname{}] zero-fills the array, then the body runs
    [std::strncpy(hostname, _key.data(), _key.size())].  [None] when that
    store leaves the array. *)
Definition alias_ctor (_key : string) (_expiration _expires_after : Z)
  : option alias :=
  match store_at_start (replicate hostname_capacity NUL)
                       (strncpy _key (String.length _key)) with
  | Some buf => Some {| hostname := buf;
                        expiration := _expiration;
                        expires_after := _expires_after |}
  | None => None
  end.

(** [key_type] is [string] and [map_type] is [gmap string alias] below. *)

(** ** Global variables and the operating system's named objects *)

Record managed_shared_memory := { shm_name : string; shm_size : Z }.
Record void_allocator_type := { segment_manager_of : string }.
Record named_sharable_mutex := { mutex_name : string }.

(** The globals of the translation unit as one process sees them, together
    with the named objects of the operating system.  [g_map] is the pointer
    together with the map it points to inside the segment; [None] is
    [nullptr], as for the three [unique_ptr]s. *)
Record world := {
  g_segment_name : string;
  g_segment_size : Z;
  g_mutex_name : string;
  g_owner_pid : Z;
  g_segment : option managed_shared_memory;
  g_allocator : option void_allocator_type;
  g_mutex : option named_sharable_mutex;
  g_map : option (gmap string alias);
  os_shared_memory : gset string;
  os_named_mutexes : gset string
}.

Definition set_g_segment_name (v : string) (w : world) : world :=
  {| g_segment_name := v; g_segment_size := g_segment_size w;
     g_mutex_name := g_mutex_name w; g_owner_pid := g_owner_pid w;
     g_segment := g_segment w; g_allocator := g_allocator w;
     g_mutex := g_mutex w; g_map := g_map w;
     os_shared_memory := os_shared_memory w;
     os_named_mutexes := os_named_mutexes w |}.

Definition set_g_segment_size (v : Z) (w : world) : world :=
  {| g_segment_name := g_segment_name w; g_segment_size := v;
     g_mutex_name := g_mutex_name w; g_owner_pid := g_owner_pid w;
     g_segment := g_segment w; g_allocator := g_allocator w;
     g_mutex := g_mutex w; g_map := g_map w;
     os_shared_memory := os_shared_memory w;
     os_named_mutexes := os_named_mutexes w |}.

Definition set_g_mutex_name (v : string) (w : world) : world :=
  {| g_segment_name := g_segment_name w; g_segment_size := g_segment_size w;
     g_mutex_name := v; g_owner_pid := g_owner_pid w;
     g_segment := g_segment w; g_allocator := g_allocator w;
     g_mutex := g_mutex w; g_map := g_map w;
     os_shared_memory := os_shared_memory w;
     os_named_mutexes := os_named_mutexes w |}.

Definition set_g_owner_pid (v : Z) (w : world) : world :=
  {| g_segment_name := g_segment_name w; g_segment_size := g_segment_size w;
     g_mutex_name := g_mutex_name w; g_owner_pid := v;
     g_segment := g_segment w; g_allocator := g_allocator w;
     g_mutex := g_mutex w; g_map := g_map w;
     os_shared_memory := os_shared_memory w;
     os_named_mutexes := os_named_mutexes w |}.

Definition set_g_segment (v : option managed_shared_memory) (w : world) : world :=
  {| g_segment_name := g_segment_name w; g_segment_size := g_segment_size w;
     g_mutex_name := g_mutex_name w; g_owner_pid := g_owner_pid w;
     g_segment := v; g_allocator := g_allocator w;
     g_mutex := g_mutex w; g_map := g_map w;
     os_shared_memory := os_shared_memory w;
     os_named_mutexes := os_named_mutexes w |}.

Definition set_g_allocator (v : option void_allocator_type) (w : world) : world :=
  {| g_segment_name := g_segment_name w; g_segment_size := g_segment_size w;
     g_mutex_name := g_mutex_name w; g_owner_pid := g_owner_pid w;
     g_segment := g_segment w; g_allocator := v;
     g_mutex := g_mutex w; g_map := g_map w;
     os_shared_memory := os_shared_memory w;
     os_named_mutexes := os_named_mutexes w |}.

Definition set_g_mutex (v : option named_sharable_mutex) (w : world) : world :=
  {| g_segment_name := g_segment_name w; g_segment_size := g_segment_size w;
     g_mutex_name := g_mutex_name w; g_owner_pid := g_owner_pid w;
     g_segment := g_segment w; g_allocator := g_allocator w;
     g_mutex := v; g_map := g_map w;
     os_shared_memory := os_shared_memory w;
     os_named_mutexes := os_named_mutexes w |}.

Definition set_g_map (v : option (gmap string alias)) (w : world) : world :=
  {| g_segment_name := g_segment_name w; g_segment_size := g_segment_size w;
     g_mutex_name := g_mutex_name w; g_owner_pid := g_owner_pid w;
     g_segment := g_segment w; g_allocator := g_allocator w;
     g_mutex := g_mutex w; g_map := v;
     os_shared_memory := os_shared_memory w;
     os_named_mutexes := os_named_mutexes w |}.

Definition set_os_shared_memory (v : gset string) (w : world) : world :=
  {| g_segment_name := g_segment_name w; g_segment_size := g_segment_size w;
     g_mutex_name := g_mutex_name w; g_owner_pid := g_owner_pid w;
     g_segment := g_segment w; g_allocator := g_allocator w;
     g_mutex := g_mutex w; g_map := g_map w;
     os_shared_memory := v;
     os_named_mutexes := os_named_mutexes w |}.

Definition set_os_named_mutexes (v : gset string) (w : world) : world :=
  {| g_segment_name := g_segment_name w; g_segment_size := g_segment_size w;
     g_mutex_name := g_mutex_name w; g_owner_pid := g_owner_pid w;
     g_segment := g_segment w; g_allocator := g_allocator w;
     g_mutex := g_mutex w; g_map := g_map w;
     os_shared_memory := os_shared_memory w;
     os_named_mutexes := v |}.

(** The globals of a process in which nothing has run yet (static
    zero-initialisation), on an operating system holding the given names. *)
Definition fresh_process (shm mtx : gset string) : world :=
  {| g_segment_name := EmptyString; g_segment_size := 0;
     g_mutex_name := EmptyString; g_owner_pid := 0;
     g_segment := None; g_allocator := None;
     g_mutex := None; g_map := None;
     os_shared_memory := shm; os_named_mutexes := mtx |}.

(** ** Outcomes of an operation *)

(** Library calls that can raise a C++ exception. *)
Inductive primitive :=
| shm_create        (* managed_shared_memory(create_only, ...) *)
| mutex_create      (* named_sharable_mutex(create_only, ...) *)
| map_construct     (* segment->construct<map_type>(...) *)
| map_destroy       (* segment->destroy_ptr(g_map) *)
| lock_acquire      (* scoped_lock / sharable_lock constructors *)
| key_allocate      (* key_type{_key.data(), *g_allocator} *)
| node_allocate.    (* a new map node *)

Inductive undefined_behaviour :=
| null_dereference
| buffer_overrun       (* store past the end of hostname *)
| unterminated_read    (* read past the end of hostname *)
| signed_overflow.

(** What the process cannot control: its pid, the reading of the clock
    during the call, and which library calls fail. *)
Record environment := {
  getpid : Z;
  clock_now : Z;
  throws : primitive -> bool
}.

Inductive outcome (A : Type) :=
| Return (a : A) (w : world)
| Throw (p : primitive) (w : world)
| Undefined (u : undefined_behaviour).

Arguments Return {A} a w.
Arguments Throw {A} p w.
Arguments Undefined {A} u.

Definition hc (A : Type) : Type := environment -> world -> outcome A.

#[export] Instance hc_ret : MRet hc := fun A a _ w => Return a w.

#[export] Instance hc_bind : MBind hc := fun A B f m env w =>
  match m env w with
  | Return a w' => f a env w'
  | Throw p w' => Throw p w'
  | Undefined u => Undefined u
  end.

Definition get {A} (f : world -> A) : hc A := fun _ w => Return (f w) w.
Definition modify (f : world -> world) : hc unit := fun _ w => Return tt (f w).
Definition ask {A} (f : environment -> A) : hc A := fun env w => Return (f env) w.
Definition undefined {A} (u : undefined_behaviour) : hc A := fun _ _ => Undefined u.

Definition throw {A} (p : primitive) : hc A := fun _ w => Throw p w.

Definition may_throw (p : primitive) : hc unit := fun env w =>
  if throws env p then Throw p w else Return tt w.

(** [*p] and [p->] for a pointer global. *)
Definition deref {A} (p : world -> option A) : hc A := fun _ w =>
  match p w with
  | Some a => Return a w
  | None => Undefined null_dereference
  end.

Definition defined {A} (u : undefined_behaviour) (o : option A) : hc A :=
  match o with
  | Some a => mret a
  | None => undefined u
  end.

(** [try { body } catch (...) {}] *)
Definition try_catch_all (body : hc unit) : hc unit := fun env w =>
  match body env w with
  | Throw _ w' => Return tt w'
  | o => o
  end.

Definition when (b : bool) (body : hc unit) : hc unit :=
  if b then body else mret tt.

Definition non_null {A} (p : option A) : bool :=
  match p with Some _ => true | None => false end.

(** ** Library calls *)

(** [bi::named_sharable_mutex::remove] and [bi::shared_memory_object::remove]
    report failure through their [bool] result, which the callers drop. *)
Definition named_sharable_mutex_remove (name : string) : hc unit :=
  modify (fun w => set_os_named_mutexes (os_named_mutexes w ∖ {[ c_str name ]}) w).

Definition shared_memory_object_remove (name : string) : hc unit :=
  modify (fun w => set_os_shared_memory (os_shared_memory w ∖ {[ c_str name ]}) w).

(** [create_only] construction fails when the name is taken. *)
Definition managed_shared_memory_create_only (name : string) (size : Z)
  : hc managed_shared_memory :=
  taken ← get os_shared_memory;
  if decide (c_str name ∈ taken) then throw shm_create
  else
    may_throw shm_create;;
    modify (fun w => set_os_shared_memory ({[ c_str name ]} ∪ os_shared_memory w) w);;
    mret {| shm_name := c_str name; shm_size := size |}.

Definition named_sharable_mutex_create_only (name : string)
  : hc named_sharable_mutex :=
  taken ← get os_named_mutexes;
  if decide (c_str name ∈ taken) then throw mutex_create
  else
    may_throw mutex_create;;
    modify (fun w => set_os_named_mutexes ({[ c_str name ]} ∪ os_named_mutexes w) w);;
    mret {| mutex_name := c_str name |}.

(** [bi::scoped_lock lk{*g_mutex}] and [bi::sharable_lock lk{*g_mutex}];
    the lock is released when the operation returns. *)
Definition scoped_lock : hc unit :=
  _ ← deref g_mutex; may_throw lock_acquire.

Definition sharable_lock : hc unit :=
  _ ← deref g_mutex; may_throw lock_acquire.

(** [key_type{_key.data(), *g_allocator}] *)
Definition key_type_ctor (_key : string) : hc string :=
  _ ← deref g_allocator; may_throw key_allocate;; mret (c_str _key).

(** ** The operations of [irods::experimental::net::hostname_cache] *)

Section HostnameCache.
Context `{clock_type}.

Definition init (_shm_name : string) (_shm_size : Z) : hc unit :=
  pid ← ask getpid; owner ← get g_owner_pid;
  if decide (pid = owner) then mret tt
  else
    modify (set_g_segment_name (c_str _shm_name));;
    modify (set_g_segment_size _shm_size);;
    modify (fun w => set_g_mutex_name (g_segment_name w +:+ "_mutex") w);;
    mutex_name ← get g_mutex_name;
    segment_name ← get g_segment_name;
    segment_size ← get g_segment_size;
    named_sharable_mutex_remove mutex_name;;
    shared_memory_object_remove segment_name;;
    pid ← ask getpid; modify (set_g_owner_pid pid);;
    segment ← managed_shared_memory_create_only segment_name segment_size;
    modify (set_g_segment (Some segment));;
    segment ← deref g_segment;
    modify (set_g_allocator (Some {| segment_manager_of := shm_name segment |}));;
    mutex ← named_sharable_mutex_create_only mutex_name;
    modify (set_g_mutex (Some mutex));;
    _ ← deref g_segment; _ ← deref g_allocator;
    may_throw map_construct;;
    modify (set_g_map (Some ∅)).

Definition deinit : hc unit :=
  pid ← ask getpid; owner ← get g_owner_pid;
  if decide (pid ≠ owner) then mret tt
  else
    try_catch_all (
      modify (set_g_owner_pid 0);;
      segment ← get g_segment; map ← get g_map;
      when (non_null segment && non_null map)
           (may_throw map_destroy;; modify (set_g_map None));;
      mutex ← get g_mutex;
      when (non_null mutex) (modify (set_g_mutex None));;
      allocator ← get g_allocator;
      when (non_null allocator) (modify (set_g_allocator None));;
      segment ← get g_segment;
      when (non_null segment) (modify (set_g_segment None));;
      mutex_name ← get g_mutex_name;
      segment_name ← get g_segment_name;
      named_sharable_mutex_remove mutex_name;;
      shared_memory_object_remove segment_name).

Definition insert_or_assign (_key _alias : string) (_expires_after : Z)
  : hc bool :=
  scoped_lock;;
  now ← ask clock_now;
  tp ← defined signed_overflow (time_point_plus_seconds now _expires_after);
  let expiration := seconds_since_epoch tp in
  map ← deref g_map;
  key ← key_type_ctor _key;
  mapped ← defined buffer_overrun (alias_ctor _alias expiration _expires_after);
  match map !! key with
  | Some _ =>
      modify (set_g_map (Some (<[key := mapped]> map)));; mret false
  | None =>
      may_throw node_allocate;;
      modify (set_g_map (Some (<[key := mapped]> map)));; mret true
  end.

Definition lookup (_key : string) : hc (option string) :=
  sharable_lock;;
  map ← deref g_map;
  key ← key_type_ctor _key;
  match map !! key with
  | Some mapped =>
      now ← ask clock_now;
      if current_timestamp_in_seconds now <? expiration mapped
      then s ← defined unterminated_read (read_c_string (hostname mapped));
           mret (Some s)
      else mret None
  | None => mret None
  end.

Definition erase (_key : string) : hc unit :=
  scoped_lock;;
  map ← deref g_map;
  key ← key_type_ctor _key;
  modify (set_g_map (Some (delete key map))).

(** The loop of [erase_expired_entries] over the entries [iter] visits:
    [g_map->erase(iter)] when [now >= iter->second.expiration], [++iter]
    otherwise. *)
Fixpoint sweep (now : Z) (entries : list (string * alias))
         (map : gmap string alias) : gmap string alias :=
  match entries with
  | [] => map
  | (key, mapped) :: rest =>
      if now >=? expiration mapped
      then sweep now rest (delete key map)
      else sweep now rest map
  end.

Definition erase_expired_entries : hc unit :=
  scoped_lock;;
  clock ← ask clock_now;
  let now := current_timestamp_in_seconds clock in
  map ← deref g_map;
  modify (set_g_map (Some (sweep now (map_to_list map) map))).

Definition clear : hc unit :=
  scoped_lock;;
  _ ← deref g_map;
  modify (set_g_map (Some ∅)).

Definition size : hc Z :=
  sharable_lock;;
  map ← deref g_map;
  mret (Z.of_nat (base.size map)).

(** [available_memory] reports the free bytes of the segment manager,
    which this development leaves abstract. *)
End HostnameCache.

(** ** Vocabulary of the specification *)

(** No library call raises an exception during the operation. *)
Definition quiet (env : environment) : Prop := forall p, throws env p = false.

(** The cache has been initialised and [g_map] points to [map]. *)
Definition initialised (w : world) (map : gmap string alias) : Prop :=
  is_Some (g_mutex w) /\ is_Some (g_allocator w) /\ g_map w = Some map.

(** The alias string an entry holds: its [hostname] array read as a C
    string. *)
Definition stored_alias (mapped : alias) : option string :=
  read_c_string (hostname mapped).

(** Every [hostname] array of the map holds a NUL. *)
Definition terminated (map : gmap string alias) : Prop :=
  map_Forall (fun _ mapped => is_Some (stored_alias mapped)) map.

(** The world an operation leaves behind, when it leaves one. *)
Definition world_after {A} (o : outcome A) : option world :=
  match o with
  | Return _ w => Some w
  | Throw _ w => Some w
  | Undefined _ => None
  end.

(** The entries a sweep at [now] removes. *)
Definition expired (now : Z) (map : gmap string alias) : gmap string alias :=
  filter (fun kv => expiration kv.2 <= now) map.

(** The entries it leaves. *)
Definition unexpired (now : Z) (map : gmap string alias) : gmap string alias :=
  filter (fun kv => ~ expiration kv.2 <= now) map.

(** *** Histories of calls *)

Inductive call :=
| call_insert_or_assign (_key _alias : string) (_expires_after : Z)
| call_lookup (_key : string)
| call_erase (_key : string)
| call_erase_expired_entries
| call_clear
| call_size.

Section Histories.
Context `{clock_type}.

Definition perform (c : call) : hc unit :=
  match c with
  | call_insert_or_assign k v ttl => _ ← insert_or_assign k v ttl; mret tt
  | call_lookup k => _ ← lookup k; mret tt
  | call_erase k => erase k
  | call_erase_expired_entries => erase_expired_entries
  | call_clear => clear
  | call_size => _ ← size; mret tt
  end.

(** The calls of a history run one after the other, each in its own
    environment; the history stops at the first call that does not
    return. *)
Fixpoint perform_all (history : list (environment * call)) (w : world)
  : outcome unit :=
  match history with
  | [] => Return tt w
  | (env, c) :: rest =>
      match perform c env w with
      | Return _ w' => perform_all rest w'
      | o => o
      end
  end.

(** The clock reading and the [_expires_after] argument of the latest
    [insert_or_assign] on [key] in a history, [seen] being the answer for
    the calls already passed. *)
Fixpoint last_insert_from (seen : option (Z * Z))
         (history : list (environment * call)) (key : string)
  : option (Z * Z) :=
  match history with
  | [] => seen
  | (env, call_insert_or_assign k _ ttl) :: rest =>
      if decide (c_str k = key)
      then last_insert_from (Some (clock_now env, ttl)) rest key
      else last_insert_from seen rest key
  | _ :: rest => last_insert_from seen rest key
  end.

Definition last_insert := last_insert_from None.

(** The entry was built by an [insert_or_assign] that read the clock at
    [now] and was given [ttl], as [seen] records. *)
Definition built_at (seen : option (Z * Z)) (mapped : alias) : Prop :=
  exists now ttl tp,
    seen = Some (now, ttl)
    /\ time_point_plus_seconds now ttl = Some tp
    /\ expiration mapped = seconds_since_epoch tp
    /\ expires_after mapped = ttl.
End Histories.

(** ** A concrete run

    One process, pid 4242, initialises the cache and inserts an entry; the
    clock is libstdc++'s and stands at 1700000000 seconds past the epoch. *)

Definition calm (pid now : Z) : environment :=
  {| getpid := pid; clock_now := now; throws := fun _ => false |}.

Definition boot_time : Z := 1700000000 * 1000000000.

Definition booted : world :=
  {| g_segment_name := "irods_hostname_cache";
     g_segment_size := 2500000;
     g_mutex_name := "irods_hostname_cache_mutex";
     g_owner_pid := 4242;
     g_segment := Some {| shm_name := "irods_hostname_cache";
                          shm_size := 2500000 |};
     g_allocator := Some {| segment_manager_of := "irods_hostname_cache" |};
     g_mutex := Some {| mutex_name := "irods_hostname_cache_mutex" |};
     g_map := Some ∅;
     os_shared_memory := {[ "irods_hostname_cache" ]};
     os_named_mutexes := {[ "irods_hostname_cache_mutex" ]} |}.

(** The entry [insert_or_assign("host1", "1.2.3.4", 60s)] builds at
    [boot_time]. *)
Definition host1_alias : alias :=
  {| hostname := strncpy "1.2.3.4" 7 ++ replicate 249 NUL;
     expiration := 1700000060;
     expires_after := 60 |}.

Definition host1_map : gmap string alias := {[ "host1" := host1_alias ]}.

Definition cached : world := set_g_map (Some host1_map) booted.

(** An alias with a NUL in the middle, and one of 257 characters. *)
Definition split_alias : string := String "a" (String NUL "b").

Definition long_alias : string :=
  string_of_list_ascii (replicate 257 "a"%char).


(** ** Vocabulary of the further properties *)


(** The call passes an alias shorter than the [hostname] array, if it
    passes one. *)
Definition short_alias (c : call) : Prop :=
  match c with
  | call_insert_or_assign _ _alias _ =>
      (String.length _alias < hostname_capacity)%nat
  | _ => True
  end.

(** An environment in which exactly the library call [p] throws. *)
Definition failing (p : primitive) (pid now : Z) : environment :=
  {| getpid := pid; clock_now := now;
     throws := fun q => match p, q with
                        | shm_create, shm_create
                        | mutex_create, mutex_create
                        | map_construct, map_construct
                        | map_destroy, map_destroy
                        | lock_acquire, lock_acquire
                        | key_allocate, key_allocate
                        | node_allocate, node_allocate => true
                        | _, _ => false
                        end |}.

(** An alias that fills the [hostname] array exactly. *)
Definition full_alias : string :=
  string_of_list_ascii (replicate 256 "a"%char).

(** The alias passed by the latest [insert_or_assign] on [key] in a
    history, [seen] being the answer for the calls already passed. *)
Fixpoint last_alias_from (seen : option string)
         (history : list (environment * call)) (key : string) : option string :=
  match history with
  | [] => seen
  | (_, call_insert_or_assign k v _) :: rest =>
      if decide (c_str k = key)
      then last_alias_from (Some v) rest key
      else last_alias_from seen rest key
  | _ :: rest => last_alias_from seen rest key
  end.

Definition last_alias := last_alias_from None.

(** The entry was built from the alias [seen] records. *)
Definition built_from (seen : option string) (mapped : alias) : Prop :=
  exists _alias,
    seen = Some _alias
    /\ alias_ctor _alias (expiration mapped) (expires_after mapped) = Some mapped.

(** ** The WOS command-line tool (contrib/devel/curl-wos/curl-wos.c)

    Its argument processing and the dispatch of [main].  The header
    curl-wos.h is not among the sources: the capacities of the [WOS_ARG]
    character arrays and the three operation constants are parameters.
    [getopt_long] is the C library's: the options it returns, each with
    its [optarg], are the input.  An [optarg] is a C string of [argv]. *)

Module CurlWos.

Class curl_wos_h := {
  WOS_RESOURCE_LENGTH : nat;
  WOS_POLICY_LENGTH : nat;
  WOS_FILE_LENGTH : nat;
  WOS_DESTINATION_LENGTH : nat;
  WOS_PUT : Z;
  WOS_GET : Z;
  WOS_DELETE : Z
}.

Definition code (c : ascii) : Z := Z.of_nat (nat_of_ascii c).

(** [tolower] in the C locale. *)
Definition tolower (c : ascii) : ascii :=
  if (65 <=? code c) && (code c <=? 90)
  then ascii_of_nat (nat_of_ascii c + 32)
  else c.

(** [strcasecmp]: the difference of the first two characters that differ
    once lowered, 0 when there are none. *)
Fixpoint strcasecmp (s1 s2 : string) : Z :=
  match s1, s2 with
  | EmptyString, EmptyString => 0
  | EmptyString, String c2 _ => - code (tolower c2)
  | String c1 _, EmptyString => code (tolower c1)
  | String c1 r1, String c2 r2 =>
      if Ascii.eqb (tolower c1) (tolower c2) then strcasecmp r1 r2
      else code (tolower c1) - code (tolower c2)
  end.

(** A [WOS_ARG] as [main] declares it: nothing is initialised, and a field
    holds a value once an option has stored one. *)
Record WOS_ARG := {
  resource : option string;
  policy : option string;
  file : option string;
  destination : option string;
  op : option Z
}.

Definition theArgs : WOS_ARG :=
  {| resource := None; policy := None; file := None; destination := None;
     op := None |}.

Inductive run (A : Type) :=
| Done (a : A)
| Exited (status : Z)        (* exit(status) *)
| Overrun                    (* strcpy past the end of an array *)
| Indeterminate.             (* a read of a field never stored *)

Arguments Done {A} a.
Arguments Exited {A} status.
Arguments Overrun {A}.
Arguments Indeterminate {A}.

(** [usage] prints a line and calls [exit(1)]. *)
Definition usage {A} : run A := Exited 1.

(** [strcpy(array, optarg)] into an array of [capacity] characters: the
    string and its terminator are stored. *)
Definition strcpy (capacity : nat) (optarg : string) : run string :=
  if (String.length optarg <? capacity)%nat then Done optarg else Overrun.

Section Tool.
Context `{curl_wos_h}.

(** The body of the [switch] for one option returned by [getopt_long]. *)
Definition processOption (opt : ascii) (optarg : string) (argP : WOS_ARG)
  : run WOS_ARG :=
  if Ascii.eqb opt "r" then
    match strcpy WOS_RESOURCE_LENGTH optarg with
    | Done s => Done {| resource := Some s; policy := policy argP;
                        file := file argP; destination := destination argP;
                        op := op argP |}
    | _ => Overrun
    end
  else if Ascii.eqb opt "p" then
    match strcpy WOS_POLICY_LENGTH optarg with
    | Done s => Done {| resource := resource argP; policy := Some s;
                        file := file argP; destination := destination argP;
                        op := op argP |}
    | _ => Overrun
    end
  else if Ascii.eqb opt "f" then
    match strcpy WOS_FILE_LENGTH optarg with
    | Done s => Done {| resource := resource argP; policy := policy argP;
                        file := Some s; destination := destination argP;
                        op := op argP |}
    | _ => Overrun
    end
  else if Ascii.eqb opt "o" then
    let set_op v :=
      Done {| resource := resource argP; policy := policy argP;
              file := file argP; destination := destination argP;
              op := Some v |} in
    if strcasecmp optarg "put" =? 0 then set_op WOS_PUT
    else if strcasecmp optarg "get" =? 0 then set_op WOS_GET
    else if strcasecmp optarg "delete" =? 0 then set_op WOS_DELETE
    else usage
  else if Ascii.eqb opt "d" then
    match strcpy WOS_DESTINATION_LENGTH optarg with
    | Done s => Done {| resource := resource argP; policy := policy argP;
                        file := file argP; destination := Some s;
                        op := op argP |}
    | _ => Overrun
    end
  else if Ascii.eqb opt "?" then usage
  else Done argP.

(** The loop of [processTheArguments] over the options [getopt_long]
    returns before it returns -1. *)
Fixpoint processTheArguments (opts : list (ascii * string)) (argP : WOS_ARG)
  : run WOS_ARG :=
  match opts with
  | [] => Done argP
  | (opt, optarg) :: rest =>
      match processOption opt optarg argP with
      | Done argP' => processTheArguments rest argP'
      | Exited status => Exited status
      | Overrun => Overrun
      | Indeterminate => Indeterminate
      end
  end.

(** The function [main] calls, if any. *)
Inductive operation := getTheFile | putTheFile | deleteTheFile.

(** [main]: the arguments are processed, the resource is printed, and the
    operation is chosen by comparing [theArgs.op] with the constants. *)
Definition main (opts : list (ascii * string)) : run (option operation * WOS_ARG) :=
  match processTheArguments opts theArgs with
  | Done args =>
      match resource args, op args with
      | Some _, Some o =>
          if o =? WOS_GET then Done (Some getTheFile, args)
          else if o =? WOS_PUT then Done (Some putTheFile, args)
          else if o =? WOS_DELETE then Done (Some deleteTheFile, args)
          else Done (None, args)
      | _, _ => Indeterminate
      end
  | Exited status => Exited status
  | Overrun => Overrun
  | Indeterminate => Indeterminate
  end.
End Tool.

(** The string with its letters lowered. *)
Fixpoint lower (s : string) : string :=
  match s with
  | EmptyString => EmptyString
  | String c r => String (tolower c) (lower r)
  end.

(** A header for the concrete runs. *)
Definition example_header : curl_wos_h :=
  {| WOS_RESOURCE_LENGTH := 1024; WOS_POLICY_LENGTH := 256;
     WOS_FILE_LENGTH := 1024; WOS_DESTINATION_LENGTH := 1024;
     WOS_PUT := 0; WOS_GET := 1; WOS_DELETE := 2 |}.

End CurlWos.

(** * Proofs *)

(** ** C strings and the [hostname] array *)

Lemma strncpy_length src n : length (strncpy src n) = n.
Proof.
  revert src; induction n as [|n IH]; intros src; simpl; [reflexivity|].
  destruct src as [|c src]; simpl; [now rewrite IH|].
  destruct (is_nul c); simpl; now rewrite IH.
Qed.

Lemma c_str_nul_free s : nul_free (c_str s) = true.
Proof.
  induction s as [|c s IH]; simpl; [reflexivity|].
  destruct (is_nul c) eqn:E; simpl; [reflexivity|].
  now rewrite E, IH.
Qed.

Lemma c_str_id s : nul_free s = true -> c_str s = s.
Proof.
  induction s as [|c s IH]; simpl; [reflexivity|].
  destruct (is_nul c); simpl; [discriminate|].
  intros Hs; now rewrite IH.
Qed.

(** A NUL-free string copied in full and followed by a NUL reads back. *)
Lemma read_strncpy_nul_free s rest :
  nul_free s = true ->
  read_c_string (strncpy s (String.length s) ++ NUL :: rest) = Some s.
Proof.
  induction s as [|c s IH]; simpl; [reflexivity|].
  destruct (is_nul c) eqn:E; simpl; [discriminate|].
  intros Hs. rewrite E, IH by assumption. reflexivity.
Qed.

Lemma store_at_start_fits (bytes : list ascii) n :
  (length bytes <= n)%nat ->
  store_at_start (replicate n NUL) bytes
  = Some (bytes ++ replicate (n - length bytes) NUL).
Proof.
  intros Hn. unfold store_at_start. rewrite length_replicate.
  destruct (Nat.leb_spec (length bytes) n); [|lia].
  now rewrite drop_replicate.
Qed.

Lemma store_at_start_overrun (bytes : list ascii) n :
  (n < length bytes)%nat -> store_at_start (replicate n NUL) bytes = None.
Proof.
  intros Hn. unfold store_at_start. rewrite length_replicate.
  destruct (Nat.leb_spec (length bytes) n); [lia|reflexivity].
Qed.

Lemma alias_ctor_fits _key _expiration _expires_after :
  (String.length _key <= hostname_capacity)%nat ->
  alias_ctor _key _expiration _expires_after
  = Some {| hostname := strncpy _key (String.length _key)
                        ++ replicate (hostname_capacity - String.length _key) NUL;
            expiration := _expiration;
            expires_after := _expires_after |}.
Proof.
  intros Hfit. unfold alias_ctor.
  rewrite store_at_start_fits by (now rewrite strncpy_length).
  now rewrite strncpy_length.
Qed.

Lemma alias_ctor_overrun _key _expiration _expires_after :
  (hostname_capacity < String.length _key)%nat ->
  alias_ctor _key _expiration _expires_after = None.
Proof.
  intros Hbig. unfold alias_ctor.
  now rewrite store_at_start_overrun by (now rewrite strncpy_length).
Qed.

(** An alias of at most 255 characters without NUL is stored verbatim. *)
Lemma stored_alias_ctor _alias _expiration _expires_after :
  (String.length _alias < hostname_capacity)%nat ->
  nul_free _alias = true ->
  exists mapped,
    alias_ctor _alias _expiration _expires_after = Some mapped
    /\ stored_alias mapped = Some _alias.
Proof.
  intros Hlen Hnul. eexists; split; [apply alias_ctor_fits; lia|].
  unfold stored_alias; simpl.
  destruct (hostname_capacity - String.length _alias)%nat as [|pad] eqn:E; [lia|].
  simpl. now apply read_strncpy_nul_free.
Qed.

(** ** Time *)

Section ChronoFacts.
Context `{clock_type}.

(** From a clock reading after the epoch to a time point after the
    epoch, adding whole seconds commutes with truncation to seconds. *)
Lemma seconds_since_epoch_plus now d :
  0 <= now -> 0 <= now + d * ticks_per_second ->
  seconds_since_epoch (now + d * ticks_per_second)
  = current_timestamp_in_seconds now + d.
Proof.
  intros Hnow Hsum. unfold current_timestamp_in_seconds, seconds_since_epoch.
  pose proof ticks_per_second_pos.
  apply Z.quot_add; [lia|]. apply Z.mul_nonneg_nonneg; assumption.
Qed.

Lemma time_point_plus_seconds_Some now d tp :
  time_point_plus_seconds now d = Some tp -> tp = now + d * ticks_per_second.
Proof.
  unfold time_point_plus_seconds; cbv zeta.
  destruct (_ && _); [|discriminate]. now intros [= <-].
Qed.
End ChronoFacts.

(** ** Running the operations *)

Ltac hc_unfold :=
  unfold scoped_lock, sharable_lock, key_type_ctor, deref, defined, undefined,
    may_throw, throw, modify, get, ask, when, try_catch_all,
    mbind, mret, hc_bind, hc_ret in *.

(** Rewrites with the facts at hand until the run is reduced. *)
Ltac hc_run :=
  hc_unfold; cbv beta iota;
  repeat match goal with
         | Hq : quiet _ |- _ => rewrite !Hq; cbv beta iota
         | Heq : _ = _ |- _ => rewrite !Heq; cbv beta iota
         end.

Lemma set_g_map_same (w : world) map :
  g_map w = Some map -> set_g_map (Some map) w = w.
Proof. destruct w; simpl; intros ->; reflexivity. Qed.

Section Operations.
Context `{clock_type}.

Lemma lookup_eval env w map _key :
  initialised w map -> quiet env ->
  lookup _key env w =
    match map !! c_str _key with
    | Some mapped =>
        if current_timestamp_in_seconds (clock_now env) <? expiration mapped
        then match stored_alias mapped with
             | Some s => Return (Some s) w
             | None => Undefined unterminated_read
             end
        else Return None w
    | None => Return None w
    end.
Proof.
  intros ([mtx Hmtx] & [al Hal] & Hmap) Hq.
  unfold lookup; hc_run.
  destruct (map !! c_str _key) as [mapped|]; [|reflexivity].
  unfold stored_alias.
  destruct (_ <? _); [|reflexivity].
  destruct (read_c_string _); reflexivity.
Qed.

Lemma erase_eval env w map _key :
  initialised w map -> quiet env ->
  erase _key env w = Return tt (set_g_map (Some (delete (c_str _key) map)) w).
Proof.
  intros ([mtx Hmtx] & [al Hal] & Hmap) Hq.
  unfold erase; hc_run. reflexivity.
Qed.

Lemma erase_expired_entries_eval env w map :
  initialised w map -> quiet env ->
  erase_expired_entries env w
  = Return tt (set_g_map
                 (Some (sweep (current_timestamp_in_seconds (clock_now env))
                              (map_to_list map) map)) w).
Proof.
  intros ([mtx Hmtx] & [al Hal] & Hmap) Hq.
  unfold erase_expired_entries; hc_run. reflexivity.
Qed.

Lemma size_eval env w map :
  initialised w map -> quiet env ->
  size env w = Return (Z.of_nat (base.size map)) w.
Proof.
  intros ([mtx Hmtx] & [al Hal] & Hmap) Hq.
  unfold size; hc_run. reflexivity.
Qed.

Lemma clear_eval env w map :
  initialised w map -> quiet env ->
  clear env w = Return tt (set_g_map (Some ∅) w).
Proof.
  intros ([mtx Hmtx] & [al Hal] & Hmap) Hq.
  unfold clear; hc_run. reflexivity.
Qed.

Lemma insert_or_assign_eval env w map _key _alias _expires_after tp mapped :
  initialised w map -> quiet env ->
  time_point_plus_seconds (clock_now env) _expires_after = Some tp ->
  alias_ctor _alias (seconds_since_epoch tp) _expires_after = Some mapped ->
  insert_or_assign _key _alias _expires_after env w
  = Return (bool_decide (map !! c_str _key = None))
           (set_g_map (Some (<[c_str _key := mapped]> map)) w).
Proof.
  intros ([mtx Hmtx] & [al Hal] & Hmap) Hq Htp Hctor.
  unfold insert_or_assign; hc_run.
  destruct (map !! c_str _key) as [old|] eqn:Hold; hc_run; reflexivity.
Qed.

Lemma initialised_set_g_map w map map' :
  initialised w map -> initialised (set_g_map (Some map') w) map'.
Proof. intros (? & ? & ?). repeat split; assumption. Qed.
End Operations.

(** ** The sweep *)

Lemma sweep_lookup_absent now entries (map : gmap string alias) key :
  map !! key = None -> sweep now entries map !! key = None.
Proof.
  revert map; induction entries as [|[k a] rest IH]; intros map Hkey; simpl;
    [assumption|].
  destruct (now >=? expiration a); apply IH; [|assumption].
  rewrite lookup_delete_None; now right.
Qed.

Lemma sweep_lookup_dropped now entries (map : gmap string alias) key mapped :
  (key, mapped) ∈ entries -> expiration mapped <= now ->
  sweep now entries map !! key = None.
Proof.
  revert map; induction entries as [|[k a] rest IH]; intros map Hin Hexp; simpl.
  - now apply elem_of_nil in Hin.
  - apply elem_of_cons in Hin as [[= <- <-]|Hin].
    + destruct (Z.geb_spec now (expiration mapped)); [|lia].
      apply sweep_lookup_absent, lookup_delete_eq.
    + destruct (now >=? expiration a); now apply IH.
Qed.

Lemma sweep_lookup_kept now entries (map : gmap string alias) key :
  (forall mapped, (key, mapped) ∈ entries -> now < expiration mapped) ->
  sweep now entries map !! key = map !! key.
Proof.
  revert map; induction entries as [|[k a] rest IH]; intros map Hlive; simpl;
    [reflexivity|].
  assert (Hrest : forall mapped, (key, mapped) ∈ rest -> now < expiration mapped)
    by (intros mapped Hin; apply Hlive; now right).
  destruct (Z.geb_spec now (expiration a)) as [Hexp|_]; [|now apply IH].
  rewrite IH by assumption. apply lookup_delete_ne.
  intros ->. specialize (Hlive a (list_elem_of_here _ _)). lia.
Qed.

(** Sweeping the entries of the map itself keeps exactly the live ones. *)
Lemma sweep_map_to_list now (map : gmap string alias) :
  sweep now (map_to_list map) map = unexpired now map.
Proof.
  unfold unexpired. apply map_eq; intros key. symmetry.
  destruct (map !! key) as [mapped|] eqn:Hkey.
  - destruct (decide (expiration mapped <= now)) as [Hexp|Hlive].
    + rewrite (sweep_lookup_dropped now _ map key mapped)
        by (try apply elem_of_map_to_list; assumption).
      apply map_lookup_filter_None; right. intros a Ha; simpl.
      rewrite Hkey in Ha; injection Ha as <-. tauto.
    + rewrite sweep_lookup_kept, Hkey.
      * apply map_lookup_filter_Some; split; [assumption|exact Hlive].
      * intros a Ha%elem_of_map_to_list.
        rewrite Hkey in Ha; injection Ha as <-. lia.
  - rewrite sweep_lookup_absent by assumption.
    apply map_lookup_filter_None; now left.
Qed.

Lemma size_live_expired now (map : gmap string alias) :
  base.size map
  = (base.size (unexpired now map) + base.size (expired now map))%nat.
Proof.
  unfold expired, unexpired.
  rewrite <- (map_filter_union_complement
                (fun kv : string * alias => expiration kv.2 <= now) map) at 1.
  rewrite map_size_disj_union by apply map_disjoint_filter_complement.
  lia.
Qed.

(** ** The claims *)

Section Claims.
Context `{clock_type}.

(** C1.  On an initialised cache whose entries hold terminated strings,
    [lookup] returns the stored alias string of the entry for the key
    exactly when that entry exists and the current time in seconds is
    strictly less than its expiration; it returns absent exactly when
    there is no entry or the entry's expiration is not in the future,
    swept or not. *)
Theorem lookup_spec env w map _key :
  initialised w map -> terminated map -> quiet env ->
  let now := current_timestamp_in_seconds (clock_now env) in
  exists r,
    lookup _key env w = Return r w
    /\ (forall s, r = Some s <->
          exists mapped, map !! c_str _key = Some mapped
                         /\ now < expiration mapped
                         /\ stored_alias mapped = Some s)
    /\ (r = None <->
          map !! c_str _key = None
          \/ exists mapped, map !! c_str _key = Some mapped
                            /\ expiration mapped <= now).
Proof.
  intros Hinit Hterm Hq now.
  rewrite (lookup_eval env w map) by assumption. fold now.
  destruct (map !! c_str _key) as [mapped|] eqn:Hkey.
  - destruct (Hterm _ _ Hkey) as [s Hs]. rewrite Hs.
    destruct (Z.ltb_spec now (expiration mapped)) as [Hlive|Hexp].
    + exists (Some s). split; [reflexivity|]. split.
      * intros s'; split.
        -- intros [= <-]. exists mapped. auto.
        -- intros (a & [= <-] & _ & Hs'). congruence.
      * split; [discriminate|].
        intros [|(a & [= <-] & Hle)]; [discriminate|lia].
    + exists None. split; [reflexivity|]. split.
      * intros s'; split; [discriminate|].
        intros (a & [= <-] & Hlt & _). lia.
      * split; [|reflexivity]. intros _. right. exists mapped. auto.
  - exists None. split; [reflexivity|]. split.
    + intros s'; split; [discriminate|]. intros (a & [=] & _).
    + split; auto.
Qed.

(** C2.  [erase_expired_entries] removes exactly the entries whose
    expiration is at most the time read at the start of the call, leaves
    every other entry and the rest of the state as they were, and lowers
    the result of [size] by the number of removed entries. *)
Theorem erase_expired_entries_spec env env1 env2 w map :
  initialised w map -> quiet env -> quiet env1 -> quiet env2 ->
  let now := current_timestamp_in_seconds (clock_now env) in
  exists map',
    erase_expired_entries env w = Return tt (set_g_map (Some map') w)
    /\ (forall key mapped, map !! key = Some mapped ->
          expiration mapped <= now -> map' !! key = None)
    /\ (forall key mapped, map !! key = Some mapped ->
          now < expiration mapped -> map' !! key = Some mapped)
    /\ (forall key, map !! key = None -> map' !! key = None)
    /\ exists n,
         size env1 w = Return n w
         /\ size env2 (set_g_map (Some map') w)
            = Return (n - Z.of_nat (base.size (expired now map)))
                     (set_g_map (Some map') w).
Proof.
  intros Hinit Hq Hq1 Hq2 now.
  exists (sweep now (map_to_list map) map).
  split; [now apply erase_expired_entries_eval|].
  rewrite sweep_map_to_list.
  split; [|split; [|split]]; unfold unexpired.
  - intros key mapped Hkey Hexp. apply map_lookup_filter_None; right.
    intros a Ha; simpl. rewrite Hkey in Ha; injection Ha as <-. tauto.
  - intros key mapped Hkey Hlive. apply map_lookup_filter_Some.
    split; [assumption|simpl; lia].
  - intros key Hkey. apply map_lookup_filter_None; now left.
  - exists (Z.of_nat (base.size map)). split; [now apply size_eval|].
    fold (unexpired now map).
    rewrite (size_eval env2 _ (unexpired now map))
      by (try apply (initialised_set_g_map w map); assumption).
    f_equal. pose proof (size_live_expired now map). lia.
Qed.

(** C7.  [erase] removes the entry for the key when there is one and
    changes nothing when there is none; it returns normally in both
    cases, and a [lookup] of the key afterwards returns absent. *)
Theorem erase_spec env w map _key :
  initialised w map -> quiet env ->
  exists w',
    erase _key env w = Return tt w'
    /\ g_map w' = Some (delete (c_str _key) map)
    /\ (map !! c_str _key = None -> w' = w)
    /\ (forall env', quiet env' -> lookup _key env' w' = Return None w').
Proof.
  intros Hinit Hq. eexists. split; [apply (erase_eval env w map); assumption|].
  split; [reflexivity|]. split.
  - intros Habsent. rewrite delete_id by assumption.
    apply set_g_map_same, Hinit.
  - intros env' Hq'.
    rewrite (lookup_eval env' _ (delete (c_str _key) map))
      by (try apply (initialised_set_g_map w map); assumption).
    now rewrite lookup_delete_eq.
Qed.
End Claims.

Section ClaimsInsert.
Context `{clock_type}.

(** C3.  On an initialised cache, for an alias that fits the [hostname]
    array and an expiration that is representable, [insert_or_assign]
    returns true exactly when the map held no entry for the key and
    false exactly when it held one; afterwards the entry for the key is
    the one built from the new alias and the new expiration, every other
    entry is as before, and in the overwrite case [size] is unchanged. *)
Theorem insert_or_assign_spec env env1 env2 w map _key _alias _expires_after tp :
  initialised w map -> quiet env -> quiet env1 -> quiet env2 ->
  (String.length _alias <= hostname_capacity)%nat ->
  time_point_plus_seconds (clock_now env) _expires_after = Some tp ->
  exists inserted mapped w',
    insert_or_assign _key _alias _expires_after env w = Return inserted w'
    /\ (inserted = true <-> map !! c_str _key = None)
    /\ (inserted = false <-> is_Some (map !! c_str _key))
    /\ hostname mapped
       = strncpy _alias (String.length _alias)
         ++ replicate (hostname_capacity - String.length _alias) NUL
    /\ expiration mapped = seconds_since_epoch tp
    /\ expires_after mapped = _expires_after
    /\ w' = set_g_map (Some (<[c_str _key := mapped]> map)) w
    /\ (is_Some (map !! c_str _key) ->
        exists n, size env1 w = Return n w /\ size env2 w' = Return n w').
Proof.
  intros Hinit Hq Hq1 Hq2 Hfit Htp.
  pose proof (alias_ctor_fits _alias (seconds_since_epoch tp) _expires_after Hfit)
    as Hctor.
  eexists _, {| hostname := _; expiration := _; expires_after := _ |}, _.
  split.
  { apply (insert_or_assign_eval env w map _ _ _ tp); eassumption. }
  split; [apply bool_decide_eq_true|].
  split; [rewrite bool_decide_eq_false; apply not_eq_None_Some|].
  do 4 (split; [reflexivity|]).
  intros Hold. exists (Z.of_nat (base.size map)).
  split; [now apply size_eval|].
  erewrite size_eval;
    [|apply (initialised_set_g_map w map); eassumption|assumption].
  now rewrite map_size_insert_Some.
Qed.

(** C4, as the code has it.  For a NUL-free alias of at most 255
    characters and a positive ttl, with the clock past the epoch and the
    expiration representable, a [lookup] of the key made after
    [insert_or_assign] while fewer than ttl seconds of the clock have
    been counted returns the alias. *)
Theorem lookup_after_insert_or_assign
        env env' w map _key _alias _expires_after tp :
  initialised w map -> quiet env -> quiet env' ->
  0 < _expires_after ->
  (String.length _alias < hostname_capacity)%nat ->
  nul_free _alias = true ->
  0 <= clock_now env ->
  time_point_plus_seconds (clock_now env) _expires_after = Some tp ->
  current_timestamp_in_seconds (clock_now env')
  < current_timestamp_in_seconds (clock_now env) + _expires_after ->
  exists inserted w',
    insert_or_assign _key _alias _expires_after env w = Return inserted w'
    /\ lookup _key env' w' = Return (Some _alias) w'.
Proof.
  intros Hinit Hq Hq' Httl Hlen Hnul Hnow Htp Hsoon.
  destruct (stored_alias_ctor _alias (seconds_since_epoch tp) _expires_after
              Hlen Hnul) as (mapped & Hctor & Hstored).
  eexists _, _. split.
  { apply (insert_or_assign_eval env w map _ _ _ tp); eassumption. }
  erewrite lookup_eval;
    [|apply (initialised_set_g_map w map); eassumption|assumption].
  rewrite lookup_insert_eq, Hstored.
  assert (Hexp : expiration mapped
                 = current_timestamp_in_seconds (clock_now env) + _expires_after).
  { unfold alias_ctor in Hctor. destruct (store_at_start _ _); [|discriminate].
    injection Hctor as <-. simpl.
    rewrite (time_point_plus_seconds_Some _ _ _ Htp).
    pose proof ticks_per_second_pos.
    apply seconds_since_epoch_plus; [assumption|nia]. }
  rewrite Hexp.
  destruct (Z.ltb_spec (current_timestamp_in_seconds (clock_now env'))
              (current_timestamp_in_seconds (clock_now env) + _expires_after));
    [reflexivity|lia].
Qed.
End ClaimsInsert.

(** C4, as stated, fails for an alias with an embedded NUL: the array holds
    only the characters before it, and they are what [lookup] returns. *)
Lemma embedded_nul_cuts_alias :
  initialised booted ∅
  /\ quiet (calm 4242 boot_time)
  /\ 0 < 60
  /\ (String.length split_alias <= 255)%nat
  /\ exists w',
       @insert_or_assign libstdcxx_system_clock "host1" split_alias 60
         (calm 4242 boot_time) booted = Return true w'
       /\ @lookup libstdcxx_system_clock "host1" (calm 4242 boot_time) w'
          = Return (Some "a"%string) w'
       /\ Some "a"%string <> Some split_alias.
Proof.
  split; [repeat split; eexists; reflexivity|].
  split; [intros p; reflexivity|].
  split; [lia|]. split; [simpl; lia|].
  eexists. split; [vm_compute; reflexivity|].
  split; [vm_compute; reflexivity|discriminate].
Qed.

(** The expiry test counts whole seconds: an entry inserted half a second
    into a second with a ttl of one second is already absent 0.7 seconds
    later. *)
Example entry_expires_on_the_second :
  exists w',
    @insert_or_assign libstdcxx_system_clock "host1" "1.2.3.4" 1
      (calm 4242 (boot_time + 500000000)) booted = Return true w'
    /\ @lookup libstdcxx_system_clock "host1"
         (calm 4242 (boot_time + 1200000000)) w' = Return None w'.
Proof. eexists. split; vm_compute; reflexivity. Qed.

(** C6.  The constructor stores as many characters as the alias has: an
    alias of 257 characters is neither truncated nor rejected, its last
    character is stored past the end of [hostname], and [insert_or_assign]
    has undefined behaviour. *)
Theorem alias_ctor_overruns_hostname :
  String.length long_alias = 257%nat
  /\ length (strncpy long_alias (String.length long_alias)) = 257%nat
  /\ store_at_start (replicate hostname_capacity NUL)
       (strncpy long_alias (String.length long_alias)) = None
  /\ alias_ctor long_alias 1700000060 60 = None
  /\ @insert_or_assign libstdcxx_system_clock "host1" long_alias 60
       (calm 4242 boot_time) booted = Undefined buffer_overrun.
Proof. repeat split; vm_compute; reflexivity. Qed.

(** ** What a returning call did *)

(** Case analysis on every test a run makes, innermost first. *)
Ltac hc_cases :=
  hc_unfold; cbv beta iota;
  repeat match goal with
         | |- context [match ?x with _ => _ end] =>
             lazymatch x with
             | context [match _ with _ => _ end] => fail
             | _ => destruct x eqn:?; cbv beta iota
             end
         end.

Section Inversion.
Context `{clock_type}.

Lemma lookup_world_after env w _key w' :
  world_after (lookup _key env w) = Some w' -> w' = w.
Proof.
  unfold lookup. hc_cases; simpl; intros [= <-]; reflexivity.
Qed.

Lemma size_Return env w n w' : size env w = Return n w' -> w' = w.
Proof. unfold size. hc_cases; intros [= _ <-]; reflexivity. Qed.

Lemma insert_or_assign_Return env w _key _alias _expires_after inserted w' :
  insert_or_assign _key _alias _expires_after env w = Return inserted w' ->
  exists map tp mapped,
    g_map w = Some map
    /\ time_point_plus_seconds (clock_now env) _expires_after = Some tp
    /\ alias_ctor _alias (seconds_since_epoch tp) _expires_after = Some mapped
    /\ w' = set_g_map (Some (<[c_str _key := mapped]> map)) w.
Proof.
  unfold insert_or_assign. hc_cases; intros [= _ <-]; eauto 10.
Qed.

Lemma erase_Return env w _key w' :
  erase _key env w = Return tt w' ->
  exists map, g_map w = Some map
              /\ w' = set_g_map (Some (delete (c_str _key) map)) w.
Proof. unfold erase. hc_cases; intros [= <-]; eauto. Qed.

Lemma erase_expired_entries_Return env w w' :
  erase_expired_entries env w = Return tt w' ->
  exists map,
    g_map w = Some map
    /\ w' = set_g_map
              (Some (unexpired (current_timestamp_in_seconds (clock_now env)) map)) w.
Proof.
  unfold erase_expired_entries. hc_cases; intros [= <-].
  rewrite sweep_map_to_list. eauto.
Qed.

Lemma clear_Return env w w' :
  clear env w = Return tt w' -> w' = set_g_map (Some ∅) w.
Proof. unfold clear. hc_cases; intros [= <-]; reflexivity. Qed.
End Inversion.

Lemma alias_ctor_Some _key _expiration _expires_after mapped :
  alias_ctor _key _expiration _expires_after = Some mapped ->
  expiration mapped = _expiration /\ expires_after mapped = _expires_after.
Proof.
  unfold alias_ctor. destruct (store_at_start _ _); [|discriminate].
  intros [= <-]. split; reflexivity.
Qed.

(** ** Histories *)

Section HistoryFacts.
Context `{clock_type}.

Lemma perform_all_built_at key history : forall seen w w',
  perform_all history w = Return tt w' ->
  (forall map mapped, g_map w = Some map -> map !! key = Some mapped ->
                      built_at seen mapped) ->
  forall map mapped, g_map w' = Some map -> map !! key = Some mapped ->
                     built_at (last_insert_from seen history key) mapped.
Proof.
  induction history as [|[env c] rest IH]; intros seen w w' Hrun Hinv; simpl in *.
  { injection Hrun as <-. exact Hinv. }
  destruct (perform c env w) as [[] w1| |] eqn:Hc; try discriminate.
  destruct c as [k v ttl|k|k| | |]; simpl in Hc.
  - unfold mbind, hc_bind, mret, hc_ret in Hc.
    destruct (insert_or_assign k v ttl env w) as [b w2| |] eqn:Hins;
      try discriminate.
    injection Hc as ->.
    apply insert_or_assign_Return in Hins as (map0 & tp & a & Hmap0 & Htp & Ha & ->).
    apply alias_ctor_Some in Ha as [Hexp Hafter].
    destruct (decide (c_str k = key)) as [Heq|Hne];
      (eapply IH; [exact Hrun|]); simpl; intros map mapped [= <-] Hkey.
    + rewrite Heq, lookup_insert_eq in Hkey; injection Hkey as <-.
      exists (clock_now env), ttl, tp. auto.
    + rewrite lookup_insert_ne in Hkey by assumption. eauto.
  - unfold mbind, hc_bind, mret, hc_ret in Hc.
    destruct (lookup k env w) as [r w2| |] eqn:Hlk; try discriminate.
    injection Hc as ->.
    assert (w1 = w) as -> by (apply (lookup_world_after env w k); now rewrite Hlk).
    eapply IH; eassumption.
  - apply erase_Return in Hc as (map0 & Hmap0 & ->).
    eapply IH; [exact Hrun|]; simpl; intros map mapped [= <-] Hkey.
    apply lookup_delete_Some in Hkey as [_ Hkey]. eauto.
  - apply erase_expired_entries_Return in Hc as (map0 & Hmap0 & ->).
    eapply IH; [exact Hrun|]; simpl; intros map mapped [= <-] Hkey.
    apply map_lookup_filter_Some in Hkey as [Hkey _]. eauto.
  - apply clear_Return in Hc as ->.
    eapply IH; [exact Hrun|]; simpl; intros map mapped [= <-] Hkey.
    now rewrite lookup_empty in Hkey.
  - unfold mbind, hc_bind, mret, hc_ret in Hc.
    destruct (size env w) as [n w2| |] eqn:Hsz; try discriminate.
    injection Hc as ->. apply size_Return in Hsz as ->.
    eapply IH; eassumption.
Qed.

(** C5.  In every state reached from an empty cache by a history of
    calls, each entry's expiration is the time point [now + expires_after]
    of the latest [insert_or_assign] on its key, counted in seconds, with
    [now] that call's clock reading and [expires_after] its argument (for
    time points after the epoch this is the call's timestamp in seconds
    plus [expires_after]); and no [lookup], whatever it returns, changes
    the state. *)
Theorem expiration_fixed_by_insert_or_assign history w0 w :
  g_map w0 = Some ∅ ->
  perform_all history w0 = Return tt w ->
  (forall map key mapped,
      g_map w = Some map -> map !! key = Some mapped ->
      exists now tp,
        last_insert history key = Some (now, expires_after mapped)
        /\ time_point_plus_seconds now (expires_after mapped) = Some tp
        /\ expiration mapped = seconds_since_epoch tp
        /\ (0 <= now -> 0 <= tp ->
            expiration mapped
            = current_timestamp_in_seconds now + expires_after mapped))
  /\ (forall env _key w',
         world_after (lookup _key env w) = Some w' -> w' = w).
Proof.
  intros Hempty Hrun. split.
  - intros map key mapped Hmap Hkey.
    destruct (perform_all_built_at key history None w0 w Hrun) with map mapped
      as (now & ttl & tp & Hseen & Htp & Hexp & Hafter); try assumption.
    { intros map0 a Hmap0 Ha. rewrite Hempty in Hmap0; injection Hmap0 as <-.
      now rewrite lookup_empty in Ha. }
    subst ttl. exists now, tp. repeat split; try assumption.
    intros Hnow Hpos. rewrite Hexp.
    rewrite (time_point_plus_seconds_Some _ _ _ Htp) in *.
    now apply seconds_since_epoch_plus.
  - intros env _key w'. apply lookup_world_after.
Qed.
End HistoryFacts.

(** ** Lifecycle *)

Lemma nul_free_app s1 s2 :
  nul_free s1 = true -> nul_free s2 = true -> nul_free (s1 +:+ s2) = true.
Proof.
  induction s1 as [|c s1 IH]; simpl; [auto|].
  destruct (is_nul c); simpl; [discriminate|auto].
Qed.

Lemma c_str_mutex_name name :
  c_str (c_str name +:+ "_mutex") = c_str name +:+ "_mutex".
Proof. apply c_str_id, nul_free_app; [apply c_str_nul_free|reflexivity]. Qed.

Lemma not_elem_of_removed (x : string) (names : gset string) :
  x ∉ names ∖ {[ x ]}.
Proof. intros [_ Hx]%elem_of_difference. apply Hx, elem_of_singleton. reflexivity. Qed.

Lemma elem_of_created (x : string) (names : gset string) :
  x ∈ {[ x ]} ∪ names.
Proof. apply elem_of_union_l, elem_of_singleton. reflexivity. Qed.

Lemma c_str_c_str s : c_str (c_str s) = c_str s.
Proof. apply c_str_id, c_str_nul_free. Qed.

Lemma init_eval env w _shm_name _shm_size :
  getpid env <> g_owner_pid w -> quiet env ->
  init _shm_name _shm_size env w
  = Return tt
      {| g_segment_name := c_str _shm_name;
         g_segment_size := _shm_size;
         g_mutex_name := c_str _shm_name +:+ "_mutex";
         g_owner_pid := getpid env;
         g_segment := Some {| shm_name := c_str _shm_name; shm_size := _shm_size |};
         g_allocator := Some {| segment_manager_of := c_str _shm_name |};
         g_mutex := Some {| mutex_name := c_str _shm_name +:+ "_mutex" |};
         g_map := Some ∅;
         os_shared_memory :=
           {[ c_str _shm_name ]} ∪ os_shared_memory w ∖ {[ c_str _shm_name ]};
         os_named_mutexes :=
           {[ c_str _shm_name +:+ "_mutex" ]}
             ∪ os_named_mutexes w ∖ {[ c_str _shm_name +:+ "_mutex" ]} |}.
Proof.
  intros Hpid Hq.
  unfold init, managed_shared_memory_create_only,
    named_sharable_mutex_create_only, named_sharable_mutex_remove,
    shared_memory_object_remove.
  hc_unfold. cbv beta iota.
  destruct (decide (getpid env = g_owner_pid w)) as [|_]; [contradiction|].
  simpl. rewrite !c_str_c_str, !c_str_mutex_name.
  destruct (decide (_ ∈ _)) as [Hin|_]; [now apply not_elem_of_removed in Hin|].
  cbv beta iota. rewrite Hq. simpl.
  destruct (decide (_ ∈ _)) as [Hin|_]; [now apply not_elem_of_removed in Hin|].
  cbv beta iota. rewrite !Hq. reflexivity.
Qed.

Section Lifecycle.

(** C8.  [init] called by the process whose pid is the owner marker
    returns at once: the names, the handles, the map with its entries,
    the owner marker and the named objects are all as before. *)
Theorem init_by_owner_is_noop env w _shm_name _shm_size :
  getpid env = g_owner_pid w ->
  init _shm_name _shm_size env w = Return tt w.
Proof.
  intros Hpid. unfold init. hc_unfold. cbv beta iota.
  destruct (decide (getpid env = g_owner_pid w)); [reflexivity|contradiction].
Qed.

Lemma deinit_not_owner env w :
  getpid env <> g_owner_pid w -> deinit env w = Return tt w.
Proof.
  intros Hpid. unfold deinit. hc_unfold. cbv beta iota.
  destruct (decide (getpid env <> g_owner_pid w)); [reflexivity|contradiction].
Qed.

Lemma deinit_owner env w :
  getpid env = g_owner_pid w ->
  exists w',
    deinit env w = Return tt w'
    /\ g_owner_pid w' = 0
    /\ (throws env map_destroy = false ->
        (is_Some (g_segment w) -> g_map w' = None)
        /\ g_mutex w' = None /\ g_allocator w' = None /\ g_segment w' = None
        /\ (c_str (g_mutex_name w) ∉ os_named_mutexes w')
        /\ (c_str (g_segment_name w) ∉ os_shared_memory w')).
Proof.
  intros Hpid. unfold deinit, named_sharable_mutex_remove,
    shared_memory_object_remove. hc_unfold. cbv beta iota.
  destruct (decide (getpid env <> g_owner_pid w)); [contradiction|].
  destruct w as [sn ss mn op [seg|] [al|] [mtx|] [map|] shm mtxs]; simpl;
    destruct (throws env map_destroy); simpl;
    (eexists; split; [reflexivity|]; split; [reflexivity|]);
    intros Hthrows; try discriminate;
    (split; [intros Hseg; first [reflexivity|destruct Hseg; discriminate]|]);
    repeat (split; [reflexivity|]); split; apply not_elem_of_removed.
Qed.

(** C9.  [deinit] called by a process whose pid is not the owner marker
    returns with the state as it was; a [deinit] that changes anything
    is the owner's; the owner's [deinit], when destroying the map does
    not throw, leaves no map, mutex, allocator or segment handle, no
    named mutex and no shared-memory object of the stored names, and an
    owner marker of 0; and whatever library call throws, [deinit]
    returns normally. *)
Theorem deinit_spec env w :
  (getpid env <> g_owner_pid w -> deinit env w = Return tt w)
  /\ (exists w', deinit env w = Return tt w'
                 /\ (w' <> w -> getpid env = g_owner_pid w))
  /\ (getpid env = g_owner_pid w -> throws env map_destroy = false ->
      exists w',
        deinit env w = Return tt w'
        /\ g_owner_pid w' = 0
        /\ (is_Some (g_segment w) -> g_map w' = None)
        /\ g_mutex w' = None /\ g_allocator w' = None /\ g_segment w' = None
        /\ (c_str (g_mutex_name w) ∉ os_named_mutexes w')
        /\ (c_str (g_segment_name w) ∉ os_shared_memory w')).
Proof.
  split; [apply deinit_not_owner|]. split.
  - destruct (decide (getpid env = g_owner_pid w)) as [Hpid|Hpid].
    + destruct (deinit_owner env w Hpid) as (w' & Hrun & _). eauto.
    + exists w. split; [now apply deinit_not_owner|]. intros Hw; now destruct Hw.
  - intros Hpid Hthrows.
    destruct (deinit_owner env w Hpid) as (w' & Hrun & Howner & Hrest).
    exists w'. split; [assumption|]. split; [assumption|]. now apply Hrest.
Qed.

(** C10.  The owner's [deinit] leaves the owner marker at 0, which is the
    pid of no process; an [init] by the same process afterwards is not
    the owner's no-op: it creates the named objects, the handles and an
    empty map anew and makes the process the owner again. *)
Theorem init_after_deinit env1 env2 w _shm_name _shm_size :
  getpid env1 = g_owner_pid w -> 0 < getpid env1 ->
  getpid env2 = getpid env1 -> quiet env2 ->
  exists w1 w2,
    deinit env1 w = Return tt w1
    /\ g_owner_pid w1 = 0
    /\ (forall env, 0 < getpid env -> getpid env <> g_owner_pid w1)
    /\ init _shm_name _shm_size env2 w1 = Return tt w2
    /\ g_owner_pid w2 = getpid env1
    /\ g_map w2 = Some ∅
    /\ g_segment w2
       = Some {| shm_name := c_str _shm_name; shm_size := _shm_size |}
    /\ g_allocator w2 = Some {| segment_manager_of := c_str _shm_name |}
    /\ g_mutex w2 = Some {| mutex_name := c_str _shm_name +:+ "_mutex" |}
    /\ (c_str _shm_name ∈ os_shared_memory w2)
    /\ (c_str _shm_name +:+ "_mutex" ∈ os_named_mutexes w2).
Proof.
  intros Hpid Hlive Hsame Hq.
  destruct (deinit_owner env1 w Hpid) as (w1 & Hrun & Howner & _).
  exists w1. eexists. split; [exact Hrun|]. split; [exact Howner|].
  split; [intros env Henv; rewrite Howner; lia|].
  split; [apply init_eval; [rewrite Howner; lia|assumption]|].
  simpl. split; [assumption|]. do 4 (split; [reflexivity|]).
  split; apply elem_of_created.
Qed.
End Lifecycle.

(** ** The theorems at the concrete run *)

Lemma booted_initialised : initialised booted ∅.
Proof. repeat split; eexists; reflexivity. Qed.

Lemma cached_initialised : initialised cached host1_map.
Proof. repeat split; eexists; reflexivity. Qed.

Lemma calm_quiet pid now : quiet (calm pid now).
Proof. intros p; reflexivity. Qed.

Lemma host1_map_terminated : terminated host1_map.
Proof.
  apply map_Forall_singleton. exists "1.2.3.4"%string. vm_compute. reflexivity.
Qed.

Lemma lookup_spec_witness :
  @lookup libstdcxx_system_clock "host1" (calm 4242 boot_time) cached
  = Return (Some "1.2.3.4"%string) cached.
Proof.
  destruct (@lookup_spec libstdcxx_system_clock (calm 4242 boot_time) cached
              host1_map "host1" cached_initialised host1_map_terminated
              (calm_quiet 4242 boot_time)) as (r & Hrun & Hsome & _).
  rewrite Hrun. f_equal. apply Hsome.
  exists host1_alias. repeat split; vm_compute; reflexivity.
Defined.

Lemma erase_expired_entries_spec_witness :
  exists map',
    @erase_expired_entries libstdcxx_system_clock
      (calm 4242 (boot_time + 61 * 1000000000)) cached
    = Return tt (set_g_map (Some map') cached)
    /\ map' !! "host1" = None.
Proof.
  destruct (@erase_expired_entries_spec libstdcxx_system_clock
              (calm 4242 (boot_time + 61 * 1000000000))
              (calm 4242 boot_time) (calm 4242 boot_time) cached host1_map
              cached_initialised (calm_quiet _ _) (calm_quiet _ _)
              (calm_quiet _ _)) as (map' & Hrun & Hgone & _).
  exists map'. split; [exact Hrun|].
  apply (Hgone "host1" host1_alias); vm_compute; [reflexivity|discriminate].
Defined.

Lemma insert_or_assign_spec_witness :
  exists w',
    @insert_or_assign libstdcxx_system_clock "host1" "1.2.3.4" 60
      (calm 4242 boot_time) booted = Return true w'.
Proof.
  destruct (@insert_or_assign_spec libstdcxx_system_clock
              (calm 4242 boot_time) (calm 4242 boot_time) (calm 4242 boot_time)
              booted ∅ "host1" "1.2.3.4" 60 1700000060000000000
              booted_initialised (calm_quiet _ _) (calm_quiet _ _)
              (calm_quiet _ _))
    as (inserted & mapped & w' & Hrun & Htrue & _).
  - unfold hostname_capacity; simpl; lia.
  - vm_compute. reflexivity.
  - exists w'. rewrite Hrun. f_equal. apply Htrue. reflexivity.
Defined.

Lemma lookup_after_insert_or_assign_witness :
  exists inserted w',
    @insert_or_assign libstdcxx_system_clock "host1" "1.2.3.4" 60
      (calm 4242 boot_time) booted = Return inserted w'
    /\ @lookup libstdcxx_system_clock "host1"
         (calm 4242 (boot_time + 59 * 1000000000)) w'
       = Return (Some "1.2.3.4"%string) w'.
Proof.
  apply (@lookup_after_insert_or_assign libstdcxx_system_clock
           (calm 4242 boot_time) (calm 4242 (boot_time + 59 * 1000000000))
           booted ∅ "host1" "1.2.3.4" 60 1700000060000000000
           booted_initialised (calm_quiet _ _) (calm_quiet _ _)).
  - lia.
  - unfold hostname_capacity; simpl; lia.
  - reflexivity.
  - vm_compute. discriminate.
  - vm_compute. reflexivity.
  - vm_compute. reflexivity.
Defined.

Lemma expiration_fixed_by_insert_or_assign_witness :
  exists now tp,
    @last_insert
      [(calm 4242 boot_time, call_insert_or_assign "host1" "1.2.3.4" 60)]
      "host1" = Some (now, 60)
    /\ @time_point_plus_seconds libstdcxx_system_clock now 60 = Some tp
    /\ expiration host1_alias = @seconds_since_epoch libstdcxx_system_clock tp.
Proof.
  destruct (@expiration_fixed_by_insert_or_assign libstdcxx_system_clock
              [(calm 4242 boot_time, call_insert_or_assign "host1" "1.2.3.4" 60)]
              booted cached) as [Hentries _].
  - reflexivity.
  - vm_compute. reflexivity.
  - destruct (Hentries host1_map "host1" host1_alias)
      as (now & tp & Hlast & Htp & Hexp & _).
    + reflexivity.
    + vm_compute. reflexivity.
    + exists now, tp. auto.
Defined.

Lemma erase_spec_witness :
  exists w',
    erase "host1" (calm 4242 boot_time) cached = Return tt w'
    /\ @lookup libstdcxx_system_clock "host1" (calm 4242 boot_time) w'
       = Return None w'.
Proof.
  destruct (@erase_spec libstdcxx_system_clock (calm 4242 boot_time) cached
              host1_map "host1" cached_initialised (calm_quiet _ _))
    as (w' & Hrun & _ & _ & Hlookup).
  exists w'. split; [exact Hrun|]. apply Hlookup, calm_quiet.
Defined.

Lemma init_by_owner_is_noop_witness :
  init "irods_hostname_cache" 2500000 (calm 4242 boot_time) cached
  = Return tt cached.
Proof. apply init_by_owner_is_noop. reflexivity. Defined.

Lemma deinit_spec_witness :
  deinit (calm 7 boot_time) cached = Return tt cached
  /\ exists w',
       deinit (calm 4242 boot_time) cached = Return tt w'
       /\ g_owner_pid w' = 0 /\ g_map w' = None /\ g_segment w' = None.
Proof.
  split.
  - apply (deinit_spec (calm 7 boot_time) cached). vm_compute. discriminate.
  - destruct (deinit_spec (calm 4242 boot_time) cached) as (_ & _ & Howner).
    destruct Howner as (w' & Hrun & Hpid & Hmap & _ & _ & Hseg & _);
      [reflexivity|reflexivity|].
    exists w'. repeat split; try assumption.
    apply Hmap. eexists; reflexivity.
Defined.

Lemma init_after_deinit_witness :
  exists w1 w2,
    deinit (calm 4242 boot_time) cached = Return tt w1
    /\ init "irods_hostname_cache" 2500000 (calm 4242 boot_time) w1 = Return tt w2
    /\ g_owner_pid w2 = 4242
    /\ g_map w2 = Some ∅.
Proof.
  destruct (init_after_deinit (calm 4242 boot_time) (calm 4242 boot_time)
              cached "irods_hostname_cache" 2500000)
    as (w1 & w2 & Hdeinit & _ & _ & Hinit & Howner & Hmap & _).
  - reflexivity.
  - reflexivity.
  - reflexivity.
  - apply calm_quiet.
  - exists w1, w2. auto.
Defined.

(** * Further properties of the cache *)

(** ** More on C strings *)

Lemma read_strncpy_c_str s rest :
  read_c_string (strncpy s (String.length s) ++ NUL :: rest) = Some (c_str s).
Proof.
  induction s as [|c s IH]; simpl; [reflexivity|].
  destruct (is_nul c) eqn:E; simpl.
  - reflexivity.
  - now rewrite E, IH.
Qed.

Lemma read_strncpy_unterminated s :
  nul_free s = true -> read_c_string (strncpy s (String.length s)) = None.
Proof.
  induction s as [|c s IH]; simpl; [reflexivity|].
  destruct (is_nul c) eqn:E; simpl; [discriminate|].
  intros Hs. now rewrite E, IH.
Qed.


Lemma alias_ctor_stored _alias _expiration _expires_after :
  (String.length _alias < hostname_capacity)%nat ->
  exists mapped,
    alias_ctor _alias _expiration _expires_after = Some mapped
    /\ expiration mapped = _expiration
    /\ stored_alias mapped = Some (c_str _alias).
Proof.
  intros Hlen. eexists; split; [apply alias_ctor_fits; lia|].
  split; [reflexivity|]. unfold stored_alias; simpl.
  destruct (hostname_capacity - String.length _alias)%nat as [|pad] eqn:E; [lia|].
  simpl. apply read_strncpy_c_str.
Qed.

(** ** More on the sweep *)

Lemma unexpired_lookup now (map : gmap string alias) key :
  unexpired now map !! key
  = match map !! key with
    | Some mapped => if decide (expiration mapped <= now) then None else Some mapped
    | None => None
    end.
Proof.
  unfold unexpired. destruct (map !! key) as [mapped|] eqn:Hkey.
  - destruct (decide (expiration mapped <= now)) as [Hexp|Hlive].
    + apply map_lookup_filter_None; right. intros a Ha; simpl.
      rewrite Hkey in Ha; injection Ha as <-. tauto.
    + apply map_lookup_filter_Some. split; [assumption|exact Hlive].
  - apply map_lookup_filter_None; now left.
Qed.

Lemma unexpired_unexpired now now' (map : gmap string alias) :
  now' <= now -> unexpired now' (unexpired now map) = unexpired now map.
Proof.
  intros Hle. apply map_eq; intros key. rewrite !unexpired_lookup.
  destruct (map !! key) as [mapped|]; [|reflexivity].
  destruct (decide (expiration mapped <= now)); [reflexivity|].
  destruct (decide (expiration mapped <= now')); [lia|reflexivity].
Qed.

Lemma set_g_map_set_g_map m1 m2 w :
  set_g_map m2 (set_g_map m1 w) = set_g_map m2 w.
Proof. reflexivity. Qed.

Section MoreOperations.
Context `{clock_type}.

Lemma current_timestamp_mono now now' :
  now <= now' ->
  current_timestamp_in_seconds now <= current_timestamp_in_seconds now'.
Proof.
  intros Hle. unfold current_timestamp_in_seconds, seconds_since_epoch.
  apply Z.quot_le_mono; [apply ticks_per_second_pos|assumption].
Qed.

(** X1.  [clear] on an initialised cache returns with an empty map and the
    rest of the state as it was: [size] is then 0 and every [lookup]
    returns absent. *)
Theorem clear_empties_cache env env' w map :
  initialised w map -> quiet env -> quiet env' ->
  exists w',
    clear env w = Return tt w'
    /\ w' = set_g_map (Some ∅) w
    /\ size env' w' = Return 0 w'
    /\ forall _key, lookup _key env' w' = Return None w'.
Proof.
  intros Hinit Hq Hq'.
  pose proof (initialised_set_g_map w map ∅ Hinit) as Hinit'.
  eexists. split; [apply (clear_eval env w map); assumption|].
  split; [reflexivity|]. split.
  - now rewrite (size_eval env' _ ∅).
  - intros _key. rewrite (lookup_eval env' _ ∅) by assumption.
    now rewrite lookup_empty.
Qed.

(** X2.  [insert_or_assign] of a key the map does not hold raises the
    result of [size] by one. *)
Theorem insert_new_key_grows_size
        env env1 env2 w map _key _alias _expires_after tp :
  initialised w map -> quiet env -> quiet env1 -> quiet env2 ->
  (String.length _alias <= hostname_capacity)%nat ->
  time_point_plus_seconds (clock_now env) _expires_after = Some tp ->
  map !! c_str _key = None ->
  exists w' n,
    insert_or_assign _key _alias _expires_after env w = Return true w'
    /\ size env1 w = Return n w
    /\ size env2 w' = Return (n + 1) w'.
Proof.
  intros Hinit Hq Hq1 Hq2 Hfit Htp Hnew.
  pose proof (alias_ctor_fits _alias (seconds_since_epoch tp) _expires_after Hfit)
    as Hctor.
  eexists _, (Z.of_nat (base.size map)). split.
  { rewrite (insert_or_assign_eval env w map _ _ _ tp _ Hinit Hq Htp Hctor).
    now rewrite bool_decide_eq_true_2. }
  split; [now apply size_eval|].
  erewrite size_eval;
    [|apply (initialised_set_g_map w map); eassumption|assumption].
  rewrite map_size_insert_None by assumption. f_equal. lia.
Qed.

(** X3.  While [g_mutex] is null, as before any [init], every operation
    on the cache dereferences a null pointer. *)
Theorem operations_before_init_undefined env w :
  g_mutex w = None ->
  (forall _key _alias _expires_after,
      insert_or_assign _key _alias _expires_after env w
      = Undefined null_dereference)
  /\ (forall _key, lookup _key env w = Undefined null_dereference)
  /\ (forall _key, erase _key env w = Undefined null_dereference)
  /\ erase_expired_entries env w = Undefined null_dereference
  /\ clear env w = Undefined null_dereference
  /\ size env w = Undefined null_dereference.
Proof.
  intros Hnull.
  unfold insert_or_assign, lookup, erase, erase_expired_entries, clear, size.
  hc_unfold. cbv beta iota. rewrite Hnull. repeat split.
Qed.
End MoreOperations.

Section KeysAndTime.
Context `{clock_type}.

(** X4.  Keys are taken as C strings: two keys with the same characters
    before their first NUL name the same entry for [insert_or_assign],
    [lookup] and [erase]. *)
Theorem keys_compare_as_c_strings _key _key' :
  c_str _key = c_str _key' ->
  (forall _alias _expires_after env w,
      insert_or_assign _key _alias _expires_after env w
      = insert_or_assign _key' _alias _expires_after env w)
  /\ (forall env w, lookup _key env w = lookup _key' env w)
  /\ (forall env w, erase _key env w = erase _key' env w).
Proof.
  intros Hsame. unfold insert_or_assign, lookup, erase, key_type_ctor.
  rewrite Hsame. repeat split.
Qed.

(** X5.  [insert_or_assign] on one key leaves what [lookup] returns for
    every other key as it was. *)
Theorem insert_or_assign_other_keys
        env env' w map _key _alias _expires_after tp _other :
  initialised w map -> quiet env -> quiet env' ->
  (String.length _alias <= hostname_capacity)%nat ->
  time_point_plus_seconds (clock_now env) _expires_after = Some tp ->
  c_str _other <> c_str _key ->
  exists inserted w',
    insert_or_assign _key _alias _expires_after env w = Return inserted w'
    /\ forall r, lookup _other env' w' = Return r w'
                 <-> lookup _other env' w = Return r w.
Proof.
  intros Hinit Hq Hq' Hfit Htp Hne.
  pose proof (alias_ctor_fits _alias (seconds_since_epoch tp) _expires_after Hfit)
    as Hctor.
  eexists _, _. split.
  { apply (insert_or_assign_eval env w map _ _ _ tp); eassumption. }
  intros r.
  erewrite lookup_eval;
    [|apply (initialised_set_g_map w map); eassumption|assumption].
  rewrite (lookup_eval env' w map) by assumption.
  rewrite lookup_insert_ne by congruence.
  destruct (map !! c_str _other) as [mapped|]; [|split; intros [= <-]; reflexivity].
  destruct (_ <? _); [|split; intros [= <-]; reflexivity].
  destruct (stored_alias mapped); split; try discriminate; intros [= <-]; reflexivity.
Qed.

(** X6.  [erase] of one key leaves what [lookup] returns for every other
    key as it was. *)
Theorem erase_other_keys env env' w map _key _other :
  initialised w map -> quiet env -> quiet env' ->
  c_str _other <> c_str _key ->
  exists w',
    erase _key env w = Return tt w'
    /\ forall r, lookup _other env' w' = Return r w'
                 <-> lookup _other env' w = Return r w.
Proof.
  intros Hinit Hq Hq' Hne.
  eexists. split; [apply (erase_eval env w map); assumption|].
  intros r.
  erewrite lookup_eval;
    [|apply (initialised_set_g_map w map); eassumption|assumption].
  rewrite (lookup_eval env' w map) by assumption.
  rewrite lookup_delete_ne by congruence.
  destruct (map !! c_str _other) as [mapped|]; [|split; intros [= <-]; reflexivity].
  destruct (_ <? _); [|split; intros [= <-]; reflexivity].
  destruct (stored_alias mapped); split; try discriminate; intros [= <-]; reflexivity.
Qed.

(** X7.  Inserting a key the map does not hold and erasing it again gives
    back the state before the insertion. *)
Theorem insert_then_erase_restores
        env env' w map _key _alias _expires_after tp :
  initialised w map -> quiet env -> quiet env' ->
  (String.length _alias <= hostname_capacity)%nat ->
  time_point_plus_seconds (clock_now env) _expires_after = Some tp ->
  map !! c_str _key = None ->
  exists w',
    insert_or_assign _key _alias _expires_after env w = Return true w'
    /\ erase _key env' w' = Return tt w.
Proof.
  intros Hinit Hq Hq' Hfit Htp Hnew.
  pose proof (alias_ctor_fits _alias (seconds_since_epoch tp) _expires_after Hfit)
    as Hctor.
  eexists. split.
  { rewrite (insert_or_assign_eval env w map _ _ _ tp _ Hinit Hq Htp Hctor).
    now rewrite bool_decide_eq_true_2. }
  erewrite erase_eval;
    [|apply (initialised_set_g_map w map); eassumption|assumption].
  rewrite delete_insert_id by assumption.
  f_equal. rewrite set_g_map_set_g_map. apply set_g_map_same, Hinit.
Qed.

(** X8.  A sweep is invisible to [lookup]: for a clock reading not before
    the sweep's, [lookup] returns the same with and without the sweep. *)
Theorem sweep_invisible_to_lookup env env' w map _key :
  initialised w map -> quiet env -> quiet env' ->
  clock_now env <= clock_now env' ->
  exists w',
    erase_expired_entries env w = Return tt w'
    /\ forall r, lookup _key env' w' = Return r w'
                 <-> lookup _key env' w = Return r w.
Proof.
  intros Hinit Hq Hq' Hlater. apply current_timestamp_mono in Hlater.
  eexists. split; [apply (erase_expired_entries_eval env w map); assumption|].
  intros r. rewrite sweep_map_to_list.
  erewrite lookup_eval;
    [|apply (initialised_set_g_map w map); eassumption|assumption].
  rewrite (lookup_eval env' w map) by assumption.
  rewrite unexpired_lookup.
  destruct (map !! c_str _key) as [mapped|]; [|split; intros [= <-]; reflexivity].
  destruct (decide (expiration mapped
                    <= current_timestamp_in_seconds (clock_now env))) as [Hexp|_].
  - destruct (Z.ltb_spec (current_timestamp_in_seconds (clock_now env'))
                (expiration mapped)); [lia|].
    split; intros [= <-]; reflexivity.
  - destruct (_ <? _); [|split; intros [= <-]; reflexivity].
    destruct (stored_alias mapped); split; try discriminate;
      intros [= <-]; reflexivity.
Qed.

(** X9.  A second sweep whose clock reading is not after the first's
    changes nothing. *)
Theorem erase_expired_entries_idempotent env env' w map :
  initialised w map -> quiet env -> quiet env' ->
  clock_now env' <= clock_now env ->
  exists w',
    erase_expired_entries env w = Return tt w'
    /\ erase_expired_entries env' w' = Return tt w'.
Proof.
  intros Hinit Hq Hq' Hearlier. apply current_timestamp_mono in Hearlier.
  eexists. split; [apply (erase_expired_entries_eval env w map); assumption|].
  erewrite erase_expired_entries_eval;
    [|apply (initialised_set_g_map w map); eassumption|assumption].
  rewrite !sweep_map_to_list, unexpired_unexpired by assumption. reflexivity.
Qed.

(** X10.  Absence is stable in time: when [lookup] returns absent, it
    returns absent for every later clock reading on the same state. *)
Theorem lookup_absent_stays_absent env env' w map _key :
  initialised w map -> quiet env -> quiet env' ->
  clock_now env <= clock_now env' ->
  lookup _key env w = Return None w ->
  lookup _key env' w = Return None w.
Proof.
  intros Hinit Hq Hq' Hlater. apply current_timestamp_mono in Hlater.
  rewrite !(lookup_eval _ w map) by assumption.
  destruct (map !! c_str _key) as [mapped|]; [|reflexivity].
  destruct (Z.ltb_spec (current_timestamp_in_seconds (clock_now env))
              (expiration mapped)).
  - destruct (stored_alias mapped); discriminate.
  - destruct (Z.ltb_spec (current_timestamp_in_seconds (clock_now env'))
                (expiration mapped)); [lia|reflexivity].
Qed.

(** X11.  An entry inserted with a ttl of zero or less is stored and
    counted by [size], but no [lookup] at the insertion's clock reading or
    later returns it. *)
Theorem nonpositive_ttl_never_found
        env env' w map _key _alias _expires_after tp :
  initialised w map -> quiet env -> quiet env' ->
  (String.length _alias <= hostname_capacity)%nat ->
  time_point_plus_seconds (clock_now env) _expires_after = Some tp ->
  _expires_after <= 0 ->
  clock_now env <= clock_now env' ->
  exists inserted w' n,
    insert_or_assign _key _alias _expires_after env w = Return inserted w'
    /\ lookup _key env' w' = Return None w'
    /\ size env' w' = Return n w' /\ 0 < n.
Proof.
  intros Hinit Hq Hq' Hfit Htp Httl Hlater.
  pose proof (alias_ctor_fits _alias (seconds_since_epoch tp) _expires_after Hfit)
    as Hctor.
  pose proof (initialised_set_g_map w map
                (<[c_str _key := {| hostname := strncpy _alias (String.length _alias)
                       ++ replicate (hostname_capacity - String.length _alias) NUL;
                     expiration := seconds_since_epoch tp;
                     expires_after := _expires_after |}]> map) Hinit) as Hinit'.
  eexists _, _, _. split.
  { apply (insert_or_assign_eval env w map _ _ _ tp); eassumption. }
  split; [|split].
  - erewrite lookup_eval; [|exact Hinit'|assumption].
    rewrite lookup_insert_eq. simpl.
    assert (seconds_since_epoch tp
            <= current_timestamp_in_seconds (clock_now env')) as Hexp.
    { apply (current_timestamp_mono tp (clock_now env')).
      rewrite (time_point_plus_seconds_Some _ _ _ Htp).
      pose proof ticks_per_second_pos. nia. }
    destruct (Z.ltb_spec (current_timestamp_in_seconds (clock_now env'))
                (seconds_since_epoch tp)); [lia|reflexivity].
  - erewrite size_eval; [reflexivity|exact Hinit'|assumption].
  - destruct (map !! c_str _key) eqn:Hold.
    + rewrite map_size_insert_Some by eauto.
      assert (base.size map <> 0%nat); [|lia].
      intros Hz%map_size_empty_inv. now rewrite Hz, lookup_empty in Hold.
    + rewrite map_size_insert_None by assumption. lia.
Qed.

(** X12.  Round trip: for every alias shorter than the [hostname] array, a
    [lookup] made while the entry is live returns the characters of the
    alias before its first NUL. *)
Theorem lookup_returns_c_str_of_alias
        env env' w map _key _alias _expires_after tp :
  initialised w map -> quiet env -> quiet env' ->
  (String.length _alias < hostname_capacity)%nat ->
  time_point_plus_seconds (clock_now env) _expires_after = Some tp ->
  current_timestamp_in_seconds (clock_now env') < seconds_since_epoch tp ->
  exists inserted w',
    insert_or_assign _key _alias _expires_after env w = Return inserted w'
    /\ lookup _key env' w' = Return (Some (c_str _alias)) w'.
Proof.
  intros Hinit Hq Hq' Hlen Htp Hlive.
  destruct (alias_ctor_stored _alias (seconds_since_epoch tp) _expires_after Hlen)
    as (mapped & Hctor & Hexp & Hstored).
  eexists _, _. split.
  { apply (insert_or_assign_eval env w map _ _ _ tp); eassumption. }
  erewrite lookup_eval;
    [|apply (initialised_set_g_map w map); eassumption|assumption].
  rewrite lookup_insert_eq, Hstored, Hexp.
  destruct (Z.ltb_spec (current_timestamp_in_seconds (clock_now env'))
              (seconds_since_epoch tp)); [reflexivity|lia].
Qed.

(** X13.  An alias without NUL that fills the 256 characters of [hostname]
    is stored without a terminator: [insert_or_assign] returns, and a
    [lookup] of the live entry reads past the array. *)
Theorem full_width_alias_unterminated
        env env' w map _key _alias _expires_after tp :
  initialised w map -> quiet env -> quiet env' ->
  String.length _alias = hostname_capacity ->
  nul_free _alias = true ->
  time_point_plus_seconds (clock_now env) _expires_after = Some tp ->
  current_timestamp_in_seconds (clock_now env') < seconds_since_epoch tp ->
  exists inserted w',
    insert_or_assign _key _alias _expires_after env w = Return inserted w'
    /\ lookup _key env' w' = Undefined unterminated_read.
Proof.
  intros Hinit Hq Hq' Hlen Hnul Htp Hlive.
  assert (Hfit : (String.length _alias <= hostname_capacity)%nat) by lia.
  pose proof (alias_ctor_fits _alias (seconds_since_epoch tp) _expires_after Hfit)
    as Hctor.
  eexists _, _. split.
  { apply (insert_or_assign_eval env w map _ _ _ tp); eassumption. }
  erewrite lookup_eval;
    [|apply (initialised_set_g_map w map); eassumption|assumption].
  rewrite lookup_insert_eq. unfold stored_alias. cbn [expiration hostname].
  destruct (Z.ltb_spec (current_timestamp_in_seconds (clock_now env'))
              (seconds_since_epoch tp)); [|lia].
  replace (hostname_capacity - String.length _alias)%nat with 0%nat by lia.
  cbn [replicate]. rewrite app_nil_r.
  now rewrite read_strncpy_unterminated.
Qed.
End KeysAndTime.

(** ** More on the lifecycle *)

Lemma elem_of_recreated (x y : string) (names : gset string) :
  x <> y -> x ∈ {[ y ]} ∪ names ∖ {[ y ]} <-> x ∈ names.
Proof.
  intros Hne. rewrite elem_of_union, elem_of_difference, !elem_of_singleton.
  tauto.
Qed.

Lemma elem_of_removed (x y : string) (names : gset string) :
  x <> y -> x ∈ names ∖ {[ y ]} <-> x ∈ names.
Proof.
  intros Hne. rewrite elem_of_difference, elem_of_singleton. tauto.
Qed.

Section MoreLifecycle.
Context `{clock_type}.

Lemma perform_null_mutex c env w :
  g_mutex w = None -> perform c env w = Undefined null_dereference.
Proof.
  intros Hnull. destruct c; unfold perform, insert_or_assign, lookup, erase,
    erase_expired_entries, clear, size; hc_unfold; cbv beta iota;
    rewrite Hnull; reflexivity.
Qed.

(** X14.  [init] by a process that is not the owner succeeds whatever
    named objects exist and whatever the process held before: it returns
    with the process as owner and an empty, usable cache. *)
Theorem init_creates_empty_cache env env' w _shm_name _shm_size :
  getpid env <> g_owner_pid w -> quiet env -> quiet env' ->
  exists w',
    init _shm_name _shm_size env w = Return tt w'
    /\ initialised w' ∅
    /\ g_owner_pid w' = getpid env
    /\ size env' w' = Return 0 w'
    /\ forall _key, lookup _key env' w' = Return None w'.
Proof.
  intros Hpid Hq Hq'. eexists. split; [now apply init_eval|].
  match goal with |- initialised ?w' _ /\ _ =>
    assert (Hinit : initialised w' ∅) by (repeat split; eexists; reflexivity)
  end.
  split; [exact Hinit|]. split; [reflexivity|]. split.
  - now rewrite (size_eval env' _ ∅).
  - intros _key. rewrite (lookup_eval env' _ ∅) by assumption.
    now rewrite lookup_empty.
Qed.

(** X15.  When creating the segment throws, [init] lets the exception out
    with the owner marker already set to the caller and no handle
    assigned; [init] called again by that process then returns at once
    without creating anything. *)
Theorem failed_init_blocks_retry env w _shm_name _shm_size :
  getpid env <> g_owner_pid w -> throws env shm_create = true ->
  exists w',
    init _shm_name _shm_size env w = Throw shm_create w'
    /\ g_owner_pid w' = getpid env
    /\ g_segment w' = g_segment w /\ g_allocator w' = g_allocator w
    /\ g_mutex w' = g_mutex w /\ g_map w' = g_map w
    /\ forall env' _shm_name' _shm_size',
         getpid env' = getpid env ->
         init _shm_name' _shm_size' env' w' = Return tt w'.
Proof.
  intros Hpid Hthrows.
  unfold init, managed_shared_memory_create_only, named_sharable_mutex_remove,
    shared_memory_object_remove.
  hc_unfold. cbv beta iota.
  destruct (decide (getpid env = g_owner_pid w)) as [|_]; [contradiction|].
  simpl. rewrite !c_str_c_str.
  destruct (decide (_ ∈ _)) as [_|_]; cbv beta iota; rewrite ?Hthrows;
    (eexists; split; [reflexivity|]; repeat (split; [reflexivity|]));
    intros env' n' s' Hsame; simpl; rewrite Hsame;
    destruct (decide (getpid env = getpid env)); [reflexivity|contradiction
                                                 |reflexivity|contradiction].
Qed.

(** X16.  After the owner's [deinit], a further [deinit] by the same
    process is a no-op. *)
Theorem deinit_twice env env' w :
  getpid env = g_owner_pid w -> getpid env <> 0 ->
  getpid env' = getpid env ->
  exists w',
    deinit env w = Return tt w'
    /\ deinit env' w' = Return tt w'.
Proof.
  intros Hpid Hlive Hsame.
  destruct (deinit_owner env w Hpid) as (w' & Hrun & Howner & _).
  exists w'. split; [assumption|].
  apply deinit_not_owner. rewrite Howner, Hsame. assumption.
Qed.

(** X17.  When destroying the map throws, the owner's [deinit] swallows
    the exception after clearing the owner marker and before anything is
    released: the handles, the map and the named objects stay, and no
    later [deinit] of that process releases them. *)
Theorem deinit_swallowed_failure_leaks env w :
  getpid env = g_owner_pid w -> throws env map_destroy = true ->
  is_Some (g_segment w) -> is_Some (g_map w) ->
  deinit env w = Return tt (set_g_owner_pid 0 w)
  /\ (getpid env <> 0 ->
      forall env', getpid env' = getpid env ->
                   deinit env' (set_g_owner_pid 0 w)
                   = Return tt (set_g_owner_pid 0 w)).
Proof.
  intros Hpid Hthrows [seg Hseg] [map Hmap]. split.
  - unfold deinit. hc_unfold. cbv beta iota.
    destruct (decide (getpid env <> g_owner_pid w)); [contradiction|].
    simpl. rewrite Hseg, Hmap. simpl. rewrite Hthrows. reflexivity.
  - intros Hlive env' Hsame. apply deinit_not_owner. simpl. congruence.
Qed.

(** X18.  After the owner's [deinit] has released the mutex, every
    operation on the cache dereferences a null pointer. *)
Theorem operations_after_deinit_undefined env w :
  getpid env = g_owner_pid w -> throws env map_destroy = false ->
  exists w',
    deinit env w = Return tt w'
    /\ forall c env', perform c env' w' = Undefined null_dereference.
Proof.
  intros Hpid Hthrows.
  destruct (deinit_owner env w Hpid) as (w' & Hrun & _ & Hrest).
  destruct (Hrest Hthrows) as (_ & Hmutex & _).
  exists w'. split; [assumption|].
  intros c env'. now apply perform_null_mutex.
Qed.

(** X19.  An operation on the cache that lets an exception out leaves the
    state as it was. *)
Theorem throwing_call_leaves_state c env w p w' :
  perform c env w = Throw p w' -> w' = w.
Proof.
  destruct c; unfold perform, insert_or_assign, lookup, erase,
    erase_expired_entries, clear, size; hc_cases;
    intros [= _ <-]; reflexivity.
Qed.

(** X20.  [init] and [deinit], however they end, add or remove no named
    object other than the segment and the mutex of the name they work
    on. *)
Theorem lifecycle_touches_only_own_names env w :
  (forall _shm_name _shm_size w',
      world_after (init _shm_name _shm_size env w) = Some w' ->
      (forall x, x <> c_str _shm_name ->
                 x ∈ os_shared_memory w' <-> x ∈ os_shared_memory w)
      /\ (forall x, x <> c_str _shm_name +:+ "_mutex" ->
                    x ∈ os_named_mutexes w' <-> x ∈ os_named_mutexes w))
  /\ (forall w',
         world_after (deinit env w) = Some w' ->
         (forall x, x <> c_str (g_segment_name w) ->
                    x ∈ os_shared_memory w' <-> x ∈ os_shared_memory w)
         /\ (forall x, x <> c_str (g_mutex_name w) ->
                       x ∈ os_named_mutexes w' <-> x ∈ os_named_mutexes w)).
Proof.
  split.
  - intros n s w'.
    unfold init, managed_shared_memory_create_only,
      named_sharable_mutex_create_only, named_sharable_mutex_remove,
      shared_memory_object_remove.
    hc_unfold. cbv beta iota.
    destruct (decide (getpid env = g_owner_pid w)) as [|_];
      [simpl; intros [= <-]; split; reflexivity|].
    simpl. rewrite !c_str_c_str, !c_str_mutex_name.
    destruct (decide (_ ∈ _)) as [Hin|_];
      [now apply not_elem_of_removed in Hin|].
    cbv beta iota. destruct (throws env shm_create); simpl.
    { intros [= <-]; simpl.
      split; intros x Hx; [now apply elem_of_removed|now apply elem_of_removed]. }
    destruct (decide (_ ∈ _)) as [Hin|_];
      [now apply not_elem_of_removed in Hin|].
    cbv beta iota. destruct (throws env mutex_create); simpl.
    { intros [= <-]; simpl.
      split; intros x Hx; [now apply elem_of_recreated|now apply elem_of_removed]. }
    destruct (throws env map_construct); simpl; intros [= <-]; simpl;
      split; intros x Hx; now apply elem_of_recreated.
  - intros w'.
    unfold deinit, named_sharable_mutex_remove, shared_memory_object_remove.
    hc_unfold. cbv beta iota.
    destruct (decide (getpid env <> g_owner_pid w));
      [simpl; intros [= <-]; split; reflexivity|].
    destruct w as [sn ss mn op [seg|] [al|] [mtx|] [map|] shm mtxs]; simpl;
      destruct (throws env map_destroy); simpl; intros [= <-]; simpl;
      split; intros x Hx; (reflexivity || now apply elem_of_removed).
Qed.
End MoreLifecycle.

(** ** Invariants of histories *)

Section MoreHistories.
Context `{clock_type}.

(** A property of entries that every constructed alias of an admitted call
    has holds of all entries after the call. *)
Lemma perform_map_Forall (P : alias -> Prop) (admitted : call -> Prop) c env w w' :
  (forall _key _alias _expires_after _expiration mapped,
      admitted (call_insert_or_assign _key _alias _expires_after) ->
      alias_ctor _alias _expiration _expires_after = Some mapped -> P mapped) ->
  admitted c ->
  perform c env w = Return tt w' ->
  (forall map, g_map w = Some map -> map_Forall (fun _ => P) map) ->
  forall map, g_map w' = Some map -> map_Forall (fun _ => P) map.
Proof.
  intros Hctor Hadm Hc Hinv.
  destruct c as [k v ttl|k|k| | |]; simpl in Hc.
  - unfold mbind, hc_bind, mret, hc_ret in Hc.
    destruct (insert_or_assign k v ttl env w) as [b w2| |] eqn:Hins;
      try discriminate.
    injection Hc as ->.
    apply insert_or_assign_Return in Hins as (map0 & tp & a & Hmap0 & _ & Ha & ->).
    simpl; intros map [= <-]. apply map_Forall_insert_2; eauto.
  - unfold mbind, hc_bind, mret, hc_ret in Hc.
    destruct (lookup k env w) as [r w2| |] eqn:Hlk; try discriminate.
    injection Hc as ->.
    assert (w' = w) as -> by (apply (lookup_world_after env w k); now rewrite Hlk).
    exact Hinv.
  - apply erase_Return in Hc as (map0 & Hmap0 & ->).
    simpl; intros map [= <-]. apply map_Forall_delete; eauto.
  - apply erase_expired_entries_Return in Hc as (map0 & Hmap0 & ->).
    simpl; intros map [= <-]. intros key a [Hkey _]%map_lookup_filter_Some.
    exact (Hinv map0 Hmap0 key a Hkey).
  - apply clear_Return in Hc as ->.
    simpl; intros map [= <-]. apply map_Forall_empty.
  - unfold mbind, hc_bind, mret, hc_ret in Hc.
    destruct (size env w) as [n w2| |] eqn:Hsz; try discriminate.
    injection Hc as ->. apply size_Return in Hsz as ->. exact Hinv.
Qed.

Lemma perform_all_map_Forall (P : alias -> Prop) (admitted : call -> Prop) history :
  (forall _key _alias _expires_after _expiration mapped,
      admitted (call_insert_or_assign _key _alias _expires_after) ->
      alias_ctor _alias _expiration _expires_after = Some mapped -> P mapped) ->
  Forall (fun ec => admitted ec.2) history ->
  forall w w',
    perform_all history w = Return tt w' ->
    (forall map, g_map w = Some map -> map_Forall (fun _ => P) map) ->
    forall map, g_map w' = Some map -> map_Forall (fun _ => P) map.
Proof.
  intros Hctor. induction 1 as [|[env c] rest Hc Hrest IH]; intros w w' Hrun Hinv.
  - injection Hrun as <-. exact Hinv.
  - simpl in Hrun.
    destruct (perform c env w) as [[] w1| |] eqn:Hstep; try discriminate.
    eapply IH; [exact Hrun|].
    eapply perform_map_Forall; eauto.
Qed.


(** X22.  When every alias passed in a history is shorter than the
    [hostname] array, every array in the reached state holds a terminated
    string, and no [lookup] on that state reads past an array. *)
Theorem short_aliases_keep_terminated history w0 w :
  g_map w0 = Some ∅ ->
  Forall (fun ec => short_alias ec.2) history ->
  perform_all history w0 = Return tt w ->
  (forall map, g_map w = Some map -> terminated map)
  /\ (forall env _key, lookup _key env w <> Undefined unterminated_read).
Proof.
  intros Hempty Hshort Hrun.
  assert (Hterm : forall map, g_map w = Some map -> terminated map).
  { apply (perform_all_map_Forall (fun a => is_Some (stored_alias a))
             short_alias history) with w0; try assumption.
    - intros k v ttl e a Hlen Ha. simpl in Hlen.
      destruct (alias_ctor_stored v e ttl Hlen) as (a' & Ha' & _ & Hs).
      rewrite Ha in Ha'; injection Ha' as <-. eauto.
    - intros map0 Hmap0. rewrite Hempty in Hmap0; injection Hmap0 as <-.
      apply map_Forall_empty. }
  split; [exact Hterm|].
  intros env _key. unfold lookup. hc_cases; try discriminate.
  intros _.
  match goal with
  | Hkey : ?m !! _ = Some ?a, Hread : read_c_string (hostname ?a) = None |- _ =>
      assert (Ht : terminated m) by (apply Hterm; first [assumption|reflexivity]);
      destruct (Ht _ a Hkey) as [s Hs];
      unfold stored_alias in Hs; congruence
  end.
Qed.
End MoreHistories.

(** ** What [lookup] can return *)

Lemma read_strncpy_padded s n t :
  read_c_string (strncpy s (String.length s) ++ replicate n NUL) = Some t ->
  t = c_str s.
Proof.
  revert t; induction s as [|c s IH]; intros t; simpl.
  - destruct n; simpl; [discriminate|]. now intros [= <-].
  - destruct (is_nul c) eqn:E; simpl.
    + now intros [= <-].
    + rewrite E. destruct (read_c_string _) as [t'|]; simpl; [|discriminate].
      intros [= <-]. f_equal. now apply IH.
Qed.

Lemma alias_ctor_read _alias _expiration _expires_after mapped t :
  alias_ctor _alias _expiration _expires_after = Some mapped ->
  stored_alias mapped = Some t ->
  t = c_str _alias.
Proof.
  destruct (le_lt_dec (String.length _alias) hostname_capacity) as [Hfit|Hbig].
  - rewrite alias_ctor_fits by assumption. intros [= <-]. unfold stored_alias; simpl.
    apply read_strncpy_padded.
  - rewrite alias_ctor_overrun by assumption. discriminate.
Qed.

Lemma alias_ctor_rebuild _alias _expiration _expires_after mapped :
  alias_ctor _alias _expiration _expires_after = Some mapped ->
  alias_ctor _alias (expiration mapped) (expires_after mapped) = Some mapped.
Proof.
  intros Ha. destruct (alias_ctor_Some _ _ _ _ Ha) as [-> ->]. exact Ha.
Qed.

Section LookupSource.
Context `{clock_type}.

Lemma perform_all_built_from key history : forall seen w w',
  perform_all history w = Return tt w' ->
  (forall map mapped, g_map w = Some map -> map !! key = Some mapped ->
                      built_from seen mapped) ->
  forall map mapped, g_map w' = Some map -> map !! key = Some mapped ->
                     built_from (last_alias_from seen history key) mapped.
Proof.
  induction history as [|[env c] rest IH]; intros seen w w' Hrun Hinv; simpl in *.
  { injection Hrun as <-. exact Hinv. }
  destruct (perform c env w) as [[] w1| |] eqn:Hc; try discriminate.
  destruct c as [k v ttl|k|k| | |]; simpl in Hc.
  - unfold mbind, hc_bind, mret, hc_ret in Hc.
    destruct (insert_or_assign k v ttl env w) as [b w2| |] eqn:Hins;
      try discriminate.
    injection Hc as ->.
    apply insert_or_assign_Return in Hins as (map0 & tp & a & Hmap0 & Htp & Ha & ->).
    apply alias_ctor_rebuild in Ha.
    destruct (decide (c_str k = key)) as [Heq|Hne];
      (eapply IH; [exact Hrun|]); simpl; intros map mapped [= <-] Hkey.
    + rewrite Heq, lookup_insert_eq in Hkey; injection Hkey as <-.
      exists v. auto.
    + rewrite lookup_insert_ne in Hkey by assumption. eauto.
  - unfold mbind, hc_bind, mret, hc_ret in Hc.
    destruct (lookup k env w) as [r w2| |] eqn:Hlk; try discriminate.
    injection Hc as ->.
    assert (w1 = w) as -> by (apply (lookup_world_after env w k); now rewrite Hlk).
    eapply IH; eassumption.
  - apply erase_Return in Hc as (map0 & Hmap0 & ->).
    eapply IH; [exact Hrun|]; simpl; intros map mapped [= <-] Hkey.
    apply lookup_delete_Some in Hkey as [_ Hkey]. eauto.
  - apply erase_expired_entries_Return in Hc as (map0 & Hmap0 & ->).
    eapply IH; [exact Hrun|]; simpl; intros map mapped [= <-] Hkey.
    apply map_lookup_filter_Some in Hkey as [Hkey _]. eauto.
  - apply clear_Return in Hc as ->.
    eapply IH; [exact Hrun|]; simpl; intros map mapped [= <-] Hkey.
    now rewrite lookup_empty in Hkey.
  - unfold mbind, hc_bind, mret, hc_ret in Hc.
    destruct (size env w) as [n w2| |] eqn:Hsz; try discriminate.
    injection Hc as ->. apply size_Return in Hsz as ->.
    eapply IH; eassumption.
Qed.

(** X26.  In a state reached from an empty cache by a history of calls,
    an alias [lookup] returns for a key is the alias of the latest
    [insert_or_assign] on that key, up to its first NUL; with no such call
    in the history [lookup] returns no alias. *)
Theorem lookup_returns_latest_alias history w0 w env _key s w' :
  g_map w0 = Some ∅ ->
  perform_all history w0 = Return tt w ->
  lookup _key env w = Return (Some s) w' ->
  exists _alias,
    last_alias history (c_str _key) = Some _alias /\ s = c_str _alias.
Proof.
  intros Hempty Hrun.
  assert (Hstart : forall map0 a0, g_map w0 = Some map0 -> map0 !! c_str _key = Some a0 ->
                                   built_from None a0).
  { intros map0 a0 Hmap0 Ha0. rewrite Hempty in Hmap0; injection Hmap0 as <-.
    now rewrite lookup_empty in Ha0. }
  pose proof (perform_all_built_from (c_str _key) history None w0 w Hrun Hstart)
    as Hbuilt.
  unfold lookup. hc_cases; try discriminate. intros [= <- _].
  match goal with
  | Hkey : ?m !! _ = Some ?a |- _ =>
      destruct (Hbuilt m a) as (given & Hlast & Hctor);
        [first [assumption|reflexivity]|exact Hkey|]
  end.
  exists given. split; [exact Hlast|].
  eapply alias_ctor_read; eassumption.
Qed.
End LookupSource.


(** ** The WOS command-line tool *)

Lemma code_inj c1 c2 : CurlWos.code c1 = CurlWos.code c2 -> c1 = c2.
Proof.
  unfold CurlWos.code. intros Hc%Nat2Z.inj.
  rewrite <- (ascii_nat_embedding c1), <- (ascii_nat_embedding c2).
  now rewrite Hc.
Qed.

Lemma code_range c : 0 <= CurlWos.code c < 256.
Proof. unfold CurlWos.code. pose proof (nat_ascii_bounded c). lia. Qed.

Lemma is_nul_code c : is_nul c = false -> CurlWos.code c <> 0.
Proof.
  unfold is_nul. intros Hc Hz. apply Ascii.eqb_neq in Hc. apply Hc.
  apply code_inj. exact Hz.
Qed.

Lemma tolower_not_nul c : is_nul c = false -> CurlWos.code (CurlWos.tolower c) <> 0.
Proof.
  intros Hc. unfold CurlWos.tolower.
  destruct (_ && _) eqn:Hupper; [|now apply is_nul_code].
  apply andb_true_iff in Hupper as [Hlo%Z.leb_le Hhi%Z.leb_le].
  unfold CurlWos.code in *. rewrite nat_ascii_embedding by lia. lia.
Qed.

(** On C strings, [strcasecmp] is 0 exactly when the lowered strings are
    the same. *)
Lemma strcasecmp_0 s1 s2 :
  nul_free s1 = true -> nul_free s2 = true ->
  CurlWos.strcasecmp s1 s2 = 0 <-> CurlWos.lower s1 = CurlWos.lower s2.
Proof.
  revert s2; induction s1 as [|c1 r1 IH]; intros [|c2 r2]; simpl.
  - tauto.
  - intros _ [Hc2 _]%andb_true_iff. apply negb_true_iff, tolower_not_nul in Hc2.
    split; [lia|discriminate].
  - intros [Hc1 _]%andb_true_iff _. apply negb_true_iff, tolower_not_nul in Hc1.
    split; [lia|discriminate].
  - intros [_ Hr1]%andb_true_iff [_ Hr2]%andb_true_iff.
    destruct (Ascii.eqb_spec (CurlWos.tolower c1) (CurlWos.tolower c2)) as [Hc|Hc].
    + rewrite IH by assumption. split; [intros ->; now rewrite Hc|].
      now intros [= _ ->].
    + split; [|now intros [= Hl _]].
      intros Hz. destruct Hc. apply code_inj. lia.
Qed.

Lemma strcasecmp_eqb s literal :
  nul_free s = true -> nul_free literal = true ->
  CurlWos.lower literal = literal ->
  (CurlWos.strcasecmp s literal =? 0) = String.eqb (CurlWos.lower s) literal.
Proof.
  intros Hs Hl Hlow.
  destruct (String.eqb_spec (CurlWos.lower s) literal) as [Heq|Hne].
  - apply Z.eqb_eq, strcasecmp_0; congruence.
  - apply Z.eqb_neq. intros Hz%strcasecmp_0; congruence.
Qed.

Section ToolFacts.
Context `{CurlWos.curl_wos_h}.

Lemma processTheArguments_app opts1 opts2 argP :
  CurlWos.processTheArguments (opts1 ++ opts2) argP
  = match CurlWos.processTheArguments opts1 argP with
    | CurlWos.Done argP' => CurlWos.processTheArguments opts2 argP'
    | r => r
    end.
Proof.
  revert argP; induction opts1 as [|[opt optarg] rest IH]; intros argP; simpl;
    [reflexivity|].
  destruct (CurlWos.processOption opt optarg argP); auto.
Qed.

(** X23.  The operation option is read without regard to letter case:
    an argument that spells put, get or delete once lowered stores the
    matching constant and processing goes on; any other argument ends the
    program with status 1 before the remaining options are looked at. *)
Theorem operation_option_ignores_case optarg rest argP :
  nul_free optarg = true ->
  let stored v := {| CurlWos.resource := CurlWos.resource argP;
                     CurlWos.policy := CurlWos.policy argP;
                     CurlWos.file := CurlWos.file argP;
                     CurlWos.destination := CurlWos.destination argP;
                     CurlWos.op := Some v |} in
  CurlWos.processTheArguments (("o"%char, optarg) :: rest) argP
  = if String.eqb (CurlWos.lower optarg) "put"
    then CurlWos.processTheArguments rest (stored CurlWos.WOS_PUT)
    else if String.eqb (CurlWos.lower optarg) "get"
    then CurlWos.processTheArguments rest (stored CurlWos.WOS_GET)
    else if String.eqb (CurlWos.lower optarg) "delete"
    then CurlWos.processTheArguments rest (stored CurlWos.WOS_DELETE)
    else CurlWos.Exited 1.
Proof.
  intros Hnul stored. simpl. unfold CurlWos.processOption. simpl.
  rewrite !strcasecmp_eqb by (assumption || reflexivity).
  destruct (String.eqb _ "put"); [reflexivity|].
  destruct (String.eqb _ "get"); [reflexivity|].
  destruct (String.eqb _ "delete"); reflexivity.
Qed.






(** X25.  The last operation option decides: when the options before it
    are processed to the end and a resource was given, [main] calls the
    function the last operation option names, whatever operation was
    named before (the three constants being distinct). *)
Theorem last_operation_decides opts optarg args r :
  CurlWos.WOS_PUT <> CurlWos.WOS_GET ->
  CurlWos.WOS_DELETE <> CurlWos.WOS_GET ->
  CurlWos.WOS_DELETE <> CurlWos.WOS_PUT ->
  nul_free optarg = true ->
  CurlWos.processTheArguments opts CurlWos.theArgs = CurlWos.Done args ->
  CurlWos.resource args = Some r ->
  let stored v := {| CurlWos.resource := CurlWos.resource args;
                     CurlWos.policy := CurlWos.policy args;
                     CurlWos.file := CurlWos.file args;
                     CurlWos.destination := CurlWos.destination args;
                     CurlWos.op := Some v |} in
  (CurlWos.lower optarg = "get"%string ->
   CurlWos.main (opts ++ [("o"%char, optarg)])
   = CurlWos.Done (Some CurlWos.getTheFile, stored CurlWos.WOS_GET))
  /\ (CurlWos.lower optarg = "put"%string ->
      CurlWos.main (opts ++ [("o"%char, optarg)])
      = CurlWos.Done (Some CurlWos.putTheFile, stored CurlWos.WOS_PUT))
  /\ (CurlWos.lower optarg = "delete"%string ->
      CurlWos.main (opts ++ [("o"%char, optarg)])
      = CurlWos.Done (Some CurlWos.deleteTheFile, stored CurlWos.WOS_DELETE)).
Proof.
  intros Hpg Hdg Hdp Hnul Hrun Hres stored. subst stored.
  unfold CurlWos.main. rewrite processTheArguments_app, Hrun.
  simpl. unfold CurlWos.processOption. simpl.
  rewrite !strcasecmp_eqb by (assumption || reflexivity).
  repeat split; intros ->; simpl; rewrite Hres.
  - now rewrite Z.eqb_refl.
  - apply Z.eqb_neq in Hpg. now rewrite Hpg, Z.eqb_refl.
  - apply Z.eqb_neq in Hdg, Hdp. now rewrite Hdg, Hdp, Z.eqb_refl.
Qed.
End ToolFacts.

(** ** The further properties at concrete runs *)

Lemma clear_empties_cache_witness :
  exists w',
    clear (calm 4242 boot_time) cached = Return tt w'
    /\ @size (calm 4242 boot_time) w' = Return 0 w'.
Proof.
  destruct (@clear_empties_cache libstdcxx_system_clock (calm 4242 boot_time)
              (calm 4242 boot_time) cached host1_map cached_initialised
              (calm_quiet _ _) (calm_quiet _ _)) as (w' & Hrun & _ & Hsize & _).
  exists w'. auto.
Defined.

Lemma insert_new_key_grows_size_witness :
  exists w',
    @insert_or_assign libstdcxx_system_clock "host2" "5.6.7.8" 60
      (calm 4242 boot_time) cached = Return true w'
    /\ size (calm 4242 boot_time) w' = Return 2 w'.
Proof.
  destruct (@insert_new_key_grows_size libstdcxx_system_clock
              (calm 4242 boot_time) (calm 4242 boot_time) (calm 4242 boot_time)
              cached host1_map "host2" "5.6.7.8" 60 1700000060000000000
              cached_initialised (calm_quiet _ _) (calm_quiet _ _)
              (calm_quiet _ _))
    as (w' & n & Hrun & Hbefore & Hafter).
  - unfold hostname_capacity; simpl; lia.
  - vm_compute. reflexivity.
  - vm_compute. reflexivity.
  - exists w'. split; [exact Hrun|].
    assert (n = 1) as -> by (vm_compute in Hbefore; congruence).
    exact Hafter.
Defined.

Lemma operations_before_init_undefined_witness :
  @lookup libstdcxx_system_clock "host1" (calm 4242 boot_time)
    (fresh_process ∅ ∅) = Undefined null_dereference.
Proof.
  apply (@operations_before_init_undefined libstdcxx_system_clock
           (calm 4242 boot_time) (fresh_process ∅ ∅)).
  reflexivity.
Defined.

Lemma keys_compare_as_c_strings_witness :
  @lookup libstdcxx_system_clock (String "h" (String NUL "x"))
    (calm 4242 boot_time) cached
  = @lookup libstdcxx_system_clock "h" (calm 4242 boot_time) cached.
Proof.
  apply (@keys_compare_as_c_strings libstdcxx_system_clock
           (String "h" (String NUL "x")) "h").
  reflexivity.
Defined.

Lemma insert_or_assign_other_keys_witness :
  exists inserted w',
    @insert_or_assign libstdcxx_system_clock "host2" "5.6.7.8" 60
      (calm 4242 boot_time) cached = Return inserted w'
    /\ @lookup libstdcxx_system_clock "host1" (calm 4242 boot_time) w'
       = Return (Some "1.2.3.4"%string) w'.
Proof.
  destruct (@insert_or_assign_other_keys libstdcxx_system_clock
              (calm 4242 boot_time) (calm 4242 boot_time) cached host1_map
              "host2" "5.6.7.8" 60 1700000060000000000 "host1"
              cached_initialised (calm_quiet _ _) (calm_quiet _ _))
    as (inserted & w' & Hrun & Hsame).
  - unfold hostname_capacity; simpl; lia.
  - vm_compute. reflexivity.
  - vm_compute. discriminate.
  - exists inserted, w'. split; [exact Hrun|].
    apply Hsame. vm_compute. reflexivity.
Defined.

Lemma erase_other_keys_witness :
  exists w',
    erase "host2" (calm 4242 boot_time) cached = Return tt w'
    /\ @lookup libstdcxx_system_clock "host1" (calm 4242 boot_time) w'
       = Return (Some "1.2.3.4"%string) w'.
Proof.
  destruct (@erase_other_keys libstdcxx_system_clock
              (calm 4242 boot_time) (calm 4242 boot_time) cached host1_map
              "host2" "host1" cached_initialised (calm_quiet _ _)
              (calm_quiet _ _)) as (w' & Hrun & Hsame).
  - vm_compute. discriminate.
  - exists w'. split; [exact Hrun|].
    apply Hsame. vm_compute. reflexivity.
Defined.

Lemma insert_then_erase_restores_witness :
  exists w',
    @insert_or_assign libstdcxx_system_clock "host1" "1.2.3.4" 60
      (calm 4242 boot_time) booted = Return true w'
    /\ erase "host1" (calm 4242 boot_time) w' = Return tt booted.
Proof.
  apply (@insert_then_erase_restores libstdcxx_system_clock
           (calm 4242 boot_time) (calm 4242 boot_time) booted ∅
           "host1" "1.2.3.4" 60 1700000060000000000
           booted_initialised (calm_quiet _ _) (calm_quiet _ _)).
  - unfold hostname_capacity; simpl; lia.
  - vm_compute. reflexivity.
  - reflexivity.
Defined.

Lemma sweep_invisible_to_lookup_witness :
  exists w',
    @erase_expired_entries libstdcxx_system_clock
      (calm 4242 (boot_time + 61 * 1000000000)) cached = Return tt w'
    /\ @lookup libstdcxx_system_clock "host1"
         (calm 4242 (boot_time + 61 * 1000000000)) w' = Return None w'.
Proof.
  destruct (@sweep_invisible_to_lookup libstdcxx_system_clock
              (calm 4242 (boot_time + 61 * 1000000000))
              (calm 4242 (boot_time + 61 * 1000000000)) cached host1_map
              "host1" cached_initialised (calm_quiet _ _) (calm_quiet _ _))
    as (w' & Hrun & Hsame).
  - reflexivity.
  - exists w'. split; [exact Hrun|].
    apply Hsame. vm_compute. reflexivity.
Defined.

Lemma erase_expired_entries_idempotent_witness :
  exists w',
    @erase_expired_entries libstdcxx_system_clock
      (calm 4242 (boot_time + 61 * 1000000000)) cached = Return tt w'
    /\ @erase_expired_entries libstdcxx_system_clock
         (calm 4242 boot_time) w' = Return tt w'.
Proof.
  apply (@erase_expired_entries_idempotent libstdcxx_system_clock
           (calm 4242 (boot_time + 61 * 1000000000)) (calm 4242 boot_time)
           cached host1_map cached_initialised (calm_quiet _ _)
           (calm_quiet _ _)).
  vm_compute. discriminate.
Defined.

Lemma lookup_absent_stays_absent_witness :
  @lookup libstdcxx_system_clock "host1"
    (calm 4242 (boot_time + 100 * 1000000000)) cached = Return None cached.
Proof.
  apply (@lookup_absent_stays_absent libstdcxx_system_clock
           (calm 4242 (boot_time + 61 * 1000000000))
           (calm 4242 (boot_time + 100 * 1000000000)) cached host1_map
           "host1" cached_initialised (calm_quiet _ _) (calm_quiet _ _)).
  - vm_compute. discriminate.
  - vm_compute. reflexivity.
Defined.

Lemma nonpositive_ttl_never_found_witness :
  exists inserted w' n,
    @insert_or_assign libstdcxx_system_clock "host1" "1.2.3.4" 0
      (calm 4242 boot_time) booted = Return inserted w'
    /\ @lookup libstdcxx_system_clock "host1" (calm 4242 boot_time) w'
       = Return None w'
    /\ size (calm 4242 boot_time) w' = Return n w' /\ 0 < n.
Proof.
  apply (@nonpositive_ttl_never_found libstdcxx_system_clock
           (calm 4242 boot_time) (calm 4242 boot_time) booted ∅
           "host1" "1.2.3.4" 0 boot_time
           booted_initialised (calm_quiet _ _) (calm_quiet _ _)).
  - unfold hostname_capacity; simpl; lia.
  - vm_compute. reflexivity.
  - lia.
  - lia.
Defined.

Lemma lookup_returns_c_str_of_alias_witness :
  exists inserted w',
    @insert_or_assign libstdcxx_system_clock "host1" split_alias 60
      (calm 4242 boot_time) booted = Return inserted w'
    /\ @lookup libstdcxx_system_clock "host1" (calm 4242 boot_time) w'
       = Return (Some (c_str split_alias)) w'.
Proof.
  apply (@lookup_returns_c_str_of_alias libstdcxx_system_clock
           (calm 4242 boot_time) (calm 4242 boot_time) booted ∅
           "host1" split_alias 60 1700000060000000000
           booted_initialised (calm_quiet _ _) (calm_quiet _ _)).
  - unfold hostname_capacity; simpl; lia.
  - vm_compute. reflexivity.
  - vm_compute. reflexivity.
Defined.

Lemma full_width_alias_unterminated_witness :
  exists inserted w',
    @insert_or_assign libstdcxx_system_clock "host1" full_alias 60
      (calm 4242 boot_time) booted = Return inserted w'
    /\ @lookup libstdcxx_system_clock "host1" (calm 4242 boot_time) w'
       = Undefined unterminated_read.
Proof.
  apply (@full_width_alias_unterminated libstdcxx_system_clock
           (calm 4242 boot_time) (calm 4242 boot_time) booted ∅
           "host1" full_alias 60 1700000060000000000
           booted_initialised (calm_quiet _ _) (calm_quiet _ _)).
  - vm_compute. reflexivity.
  - vm_compute. reflexivity.
  - vm_compute. reflexivity.
  - vm_compute. reflexivity.
Defined.

Lemma init_creates_empty_cache_witness :
  exists w',
    init "irods_hostname_cache" 2500000 (calm 4242 boot_time)
      (fresh_process {[ "irods_hostname_cache"%string ]} ∅) = Return tt w'
    /\ size (calm 4242 boot_time) w' = Return 0 w'.
Proof.
  destruct (@init_creates_empty_cache libstdcxx_system_clock
              (calm 4242 boot_time) (calm 4242 boot_time)
              (fresh_process {[ "irods_hostname_cache"%string ]} ∅)
              "irods_hostname_cache" 2500000)
    as (w' & Hrun & _ & _ & Hsize & _).
  - vm_compute. discriminate.
  - apply calm_quiet.
  - apply calm_quiet.
  - exists w'. auto.
Defined.

Lemma failed_init_blocks_retry_witness :
  exists w',
    init "irods_hostname_cache" 2500000 (failing shm_create 4242 boot_time)
      (fresh_process ∅ ∅) = Throw shm_create w'
    /\ g_mutex w' = None
    /\ init "irods_hostname_cache" 2500000 (calm 4242 boot_time) w'
       = Return tt w'.
Proof.
  destruct (failed_init_blocks_retry (failing shm_create 4242 boot_time)
              (fresh_process ∅ ∅) "irods_hostname_cache" 2500000)
    as (w' & Hrun & _ & _ & _ & Hmutex & _ & Hretry).
  - vm_compute. discriminate.
  - reflexivity.
  - exists w'. split; [exact Hrun|]. split; [exact Hmutex|].
    apply Hretry. reflexivity.
Defined.

Lemma deinit_twice_witness :
  exists w',
    deinit (calm 4242 boot_time) cached = Return tt w'
    /\ deinit (calm 4242 boot_time) w' = Return tt w'.
Proof.
  apply (deinit_twice (calm 4242 boot_time) (calm 4242 boot_time) cached).
  - reflexivity.
  - vm_compute. discriminate.
  - reflexivity.
Defined.

Lemma deinit_swallowed_failure_leaks_witness :
  deinit (failing map_destroy 4242 boot_time) cached
  = Return tt (set_g_owner_pid 0 cached).
Proof.
  apply (deinit_swallowed_failure_leaks (failing map_destroy 4242 boot_time)
           cached).
  - reflexivity.
  - reflexivity.
  - eexists; reflexivity.
  - eexists; reflexivity.
Defined.

Lemma operations_after_deinit_undefined_witness :
  exists w',
    deinit (calm 4242 boot_time) cached = Return tt w'
    /\ @perform libstdcxx_system_clock (call_lookup "host1")
         (calm 4242 boot_time) w' = Undefined null_dereference.
Proof.
  destruct (@operations_after_deinit_undefined libstdcxx_system_clock
              (calm 4242 boot_time) cached) as (w' & Hrun & Hops).
  - reflexivity.
  - reflexivity.
  - exists w'. split; [exact Hrun|]. apply Hops.
Defined.

Lemma throwing_call_leaves_state_witness :
  exists w',
    @perform libstdcxx_system_clock (call_insert_or_assign "host2" "5.6.7.8" 60)
      (failing node_allocate 4242 boot_time) cached = Throw node_allocate w'
    /\ w' = cached.
Proof.
  eexists. split; [vm_compute; reflexivity|].
  apply (@throwing_call_leaves_state libstdcxx_system_clock
           (call_insert_or_assign "host2" "5.6.7.8" 60)
           (failing node_allocate 4242 boot_time) cached node_allocate).
  vm_compute. reflexivity.
Defined.

Lemma lifecycle_touches_only_own_names_witness :
  "another_segment"%string ∈ os_shared_memory booted
  <-> "another_segment"%string ∈ os_shared_memory (fresh_process ∅ ∅).
Proof.
  destruct (lifecycle_touches_only_own_names (calm 4242 boot_time)
              (fresh_process ∅ ∅)) as [Hinit _].
  destruct (Hinit "irods_hostname_cache"%string 2500000 booted) as [Hshm _].
  - vm_compute. reflexivity.
  - apply Hshm. vm_compute. discriminate.
Defined.


Lemma short_aliases_keep_terminated_witness : terminated host1_map.
Proof.
  destruct (@short_aliases_keep_terminated libstdcxx_system_clock
              [(calm 4242 boot_time, call_insert_or_assign "host1" "1.2.3.4" 60)]
              booted cached) as [Hterm _].
  - reflexivity.
  - apply Forall_cons. split; [cbn; unfold hostname_capacity; lia|].
    apply Forall_nil. exact I.
  - vm_compute. reflexivity.
  - apply Hterm. reflexivity.
Defined.

Lemma operation_option_ignores_case_witness :
  @CurlWos.processTheArguments CurlWos.example_header
    [("o"%char, "GeT"%string)] CurlWos.theArgs
  = CurlWos.Done {| CurlWos.resource := None; CurlWos.policy := None;
                    CurlWos.file := None; CurlWos.destination := None;
                    CurlWos.op := Some 1 |}.
Proof.
  rewrite (@operation_option_ignores_case CurlWos.example_header "GeT" []
             CurlWos.theArgs); reflexivity.
Defined.


Lemma last_operation_decides_witness :
  @CurlWos.main CurlWos.example_header
    ([("r"%char, "http://wos"%string); ("o"%char, "put"%string)]
       ++ [("o"%char, "DELETE"%string)])
  = CurlWos.Done
      (Some CurlWos.deleteTheFile,
       {| CurlWos.resource := Some "http://wos"%string; CurlWos.policy := None;
          CurlWos.file := None; CurlWos.destination := None;
          CurlWos.op := Some 2 |}).
Proof.
  apply (@last_operation_decides CurlWos.example_header
           [("r"%char, "http://wos"%string); ("o"%char, "put"%string)]
           "DELETE"
           {| CurlWos.resource := Some "http://wos"%string; CurlWos.policy := None;
              CurlWos.file := None; CurlWos.destination := None;
              CurlWos.op := Some 0 |} "http://wos").
  - vm_compute. discriminate.
  - vm_compute. discriminate.
  - vm_compute. discriminate.
  - reflexivity.
  - vm_compute. reflexivity.
  - reflexivity.
  - reflexivity.
Defined.

Lemma lookup_returns_latest_alias_witness :
  exists _alias,
    @last_alias
      [(calm 4242 boot_time, call_insert_or_assign "host1" "1.2.3.4" 60)]
      "host1" = Some _alias
    /\ "1.2.3.4"%string = c_str _alias.
Proof.
  apply (@lookup_returns_latest_alias libstdcxx_system_clock
           [(calm 4242 boot_time, call_insert_or_assign "host1" "1.2.3.4" 60)]
           booted cached (calm 4242 boot_time) "host1" "1.2.3.4" cached).
  - reflexivity.
  - vm_compute. reflexivity.
  - vm_compute. reflexivity.
Defined.
